(** * promscale: the series set of the querier (pkg/pgmodel/querier/series_set.go)

    A shallow embedding of [pgxSeriesSet], [pgxSeries] and
    [pgxSeriesIterator], and the properties of the cursor, of the label
    assembly and of the sample iterator.

    Conventions of the embedding:
    - Go's [int] and [int64] are [Z]; the only arithmetic of the file is
      [x += 1] / [x++], written [GoInt.incr] with its 64-bit wrap-around.
    - A slice is a [list]; indexing with an [int] is [index], which is
      [None] where Go panics with "index out of range".
    - A method that can panic returns an [outcome]; a loop that the Go code
      leaves unbounded ([for { ... }]) takes fuel and returns [OutOfFuel]
      when it has none left.
    - [map[int64]labels.Label] is [gmap Z Label]. *)

From Stdlib Require Import ZArith String List Lia Floats Sorted Permutation.
From Stdlib Require OrderedTypeEx.
From stdpp Require Import base option list gmap strings.

Local Open Scope Z_scope.

(** ** Go integers and slices *)

Module GoInt.

Definition min_int : Z := - 2 ^ 63.
Definition max_int : Z := 2 ^ 63 - 1.

(** Two's complement wrap-around of a 64-bit signed integer. *)
Definition wrap (z : Z) : Z := (z + 2 ^ 63) mod 2 ^ 64 - 2 ^ 63.

(** [x++] and [x += 1]. *)
Definition incr (z : Z) : Z := wrap (z + 1).

Definition in_range (z : Z) : Prop := min_int <= z <= max_int.

End GoInt.

(** [len(s)]. *)
Definition len {A : Type} (s : list A) : Z := Z.of_nat (length s).

(** [s[i]]: [None] stands for the run-time panic of an index out of range. *)
Definition index {A : Type} (s : list A) (i : Z) : option A :=
  if i <? 0 then None else s !! Z.to_nat i.

(** ** Outcomes of a call *)

Inductive outcome (A : Type) : Type :=
  | Ok (a : A)
  | Panic
  | OutOfFuel.

Arguments Ok {A} a.
Arguments Panic {A}.
Arguments OutOfFuel {A}.

#[global] Instance outcome_ret : MRet outcome := fun A a => Ok a.

#[global] Instance outcome_bind : MBind outcome := fun A B k m =>
  match m with
  | Ok a => k a
  | Panic => Panic
  | OutOfFuel => OutOfFuel
  end.

(** [s[i]] inside a computation. *)
Definition at_index {A : Type} (s : list A) (i : Z) : outcome A :=
  match index s i with
  | Some a => Ok a
  | None => Panic
  end.

(** ** Data model *)

(** [labels.Label] of Prometheus. *)
Record Label : Type := mkLabel { Name : string; Value : string }.

Definition Labels : Type := list Label.

(** [labels.Label{}]. *)
Definition zeroLabel : Label := mkLabel "" "".

#[global] Instance Label_eq_dec : EqDecision Label.
Proof. solve_decision. Defined.

(** Modelled from the spec: the constant [model.MetricNameLabelName] is
    declared outside this file; the example of the override names the
    metric-name label [__name__]. *)
Definition MetricNameLabelName : string := "__name__".

(** [pgtype.Status]. *)
Inductive Status : Type := Undefined | Null | Present.

#[global] Instance Status_eq_dec : EqDecision Status.
Proof. solve_decision. Defined.

(** [pgtype.Float8] and [pgtype.Float8Array] (its [Elements]). *)
Record Float8 : Type := mkFloat8 { Float : float; Status_ : Status }.

Record Float8Array : Type := mkFloat8Array { Elements : list Float8 }.

(** Modelled from the spec: the interface [TimestampSeries] is declared
    outside this file. "times: an ordered sequence of millisecond
    timestamps, queryable by position and length": [At(index)] gives the
    timestamp and whether it could be read, [Len()] the length. *)
Record TimestampSeries : Type := mkTimestampSeries {
  ts_At : Z -> Z * bool;
  ts_Len : Z
}.

(** A timestamp series backed by a list, [None] being an unreadable
    timestamp. *)
Definition listTimestamps (l : list (option Z)) : TimestampSeries :=
  {| ts_At := fun i => match index l i with
                       | Some (Some t) => (t, true)
                       | _ => (0, false)
                       end;
     ts_Len := len l |}.

(** The values of Go's [error] that this file meets. *)
Inductive error : Type :=
  | ErrInvalidRowData
      (* errors.ErrInvalidRowData *)
  | ErrMissingLabel (id : Z)
      (* fmt.Errorf("Missing label for id %v", id) *)
  | ErrRetrievingSeriesSet (cause : error)
      (* fmt.Errorf("Error retrieving series set: %w", cause) *)
  | ErrUpstream (msg : string)
      (* any other error, attached to a row or returned by the querier *).

#[global] Instance error_eq_dec : EqDecision error.
Proof. solve_decision. Defined.

(** Modelled from the spec: the struct [timescaleRow] is declared outside
    this file. Its fields are the ones this file reads; [additionalLabels]
    is what [GetAdditionalLabels()] returns ("labels appended after
    resolution and override"). *)
Record timescaleRow : Type := mkRow {
  labelIds : list Z;
  times : TimestampSeries;
  values : Float8Array;
  err : option error;
  metricOverride : string;
  additionalLabels : Labels
}.

Definition GetAdditionalLabels (row : timescaleRow) : Labels :=
  additionalLabels row.

Record pgxSeriesSet : Type := mkSeriesSet {
  rowIdx : Z;
  rows : list timescaleRow;
  labelIDMap : gmap Z Label;
  set_err : option error
}.

Record pgxSeries : Type := mkSeries {
  labels : Labels;
  series_times : TimestampSeries;
  series_values : Float8Array
}.

Record pgxSeriesIterator : Type := mkIterator {
  cur : Z;
  totalSamples : Z;
  it_times : TimestampSeries;
  it_values : Float8Array
}.

(** ** The sample iterator *)

Module Iterator.

Definition with_cur (c : Z) (p : pgxSeriesIterator) : pgxSeriesIterator :=
  {| cur := c; totalSamples := totalSamples p;
     it_times := it_times p; it_values := it_values p |}.

Definition newIterator (times : TimestampSeries) (values : Float8Array)
  : pgxSeriesIterator :=
  {| cur := -1; totalSamples := ts_Len times;
     it_times := times; it_values := values |}.

Definition getTs (p : pgxSeriesIterator) : Z :=
  fst (ts_At (it_times p) (cur p)).

Definition getVal (p : pgxSeriesIterator) : outcome float :=
  e ← at_index (Elements (it_values p)) (cur p); Ok (Float e).

Definition At (p : pgxSeriesIterator) : outcome (Z * float) :=
  if (totalSamples p <=? cur p) || (cur p <? 0) then Ok (0, 0%float)
  else v ← getVal p; Ok (getTs p, v).

(** The loop of [Next]; one unit of fuel is one pass, that is one [p.cur++].
    The third component of the result counts the passes made. *)
Fixpoint Next_loop (fuel : nat) (p : pgxSeriesIterator)
  : outcome (bool * pgxSeriesIterator * nat) :=
  match fuel with
  | O => OutOfFuel
  | S fuel' =>
      let p := with_cur (GoInt.incr (cur p)) p in
      if totalSamples p <=? cur p then Ok (false, p, 1%nat)
      else
        let '(_, ok) := ts_At (it_times p) (cur p) in
        if ok then
          e ← at_index (Elements (it_values p)) (cur p);
          if decide (Status_ e = Present) then Ok (true, p, 1%nat)
          else '(b, q, n) ← Next_loop fuel' p; Ok (b, q, S n)
        else '(b, q, n) ← Next_loop fuel' p; Ok (b, q, S n)
  end.

Definition Next (fuel : nat) (p : pgxSeriesIterator)
  : outcome (bool * pgxSeriesIterator) :=
  '(b, q, _) ← Next_loop fuel p; Ok (b, q).

(** The loop of [Seek]: [fuel] bounds the calls of [Next] and is what each
    call may use; [steps] adds up the passes of all the calls. *)
Fixpoint Seek_loop (fuel calls : nat) (p : pgxSeriesIterator) (t : Z)
  (steps : nat) : outcome (bool * pgxSeriesIterator * nat) :=
  match calls with
  | O => OutOfFuel
  | S calls' =>
      '(b, q, n) ← Next_loop fuel p;
      if (b : bool) then
        if t <=? getTs q then Ok (true, q, (steps + n)%nat)
        else Seek_loop fuel calls' q t (steps + n)%nat
      else Ok (false, q, (steps + n)%nat)
  end.

Definition Seek_steps (fuel : nat) (p : pgxSeriesIterator) (t : Z)
  : outcome (bool * pgxSeriesIterator * nat) :=
  Seek_loop fuel fuel (with_cur (-1) p) t 0%nat.

Definition Seek (fuel : nat) (p : pgxSeriesIterator) (t : Z)
  : outcome (bool * pgxSeriesIterator) :=
  '(b, q, _) ← Seek_steps fuel p t; Ok (b, q).

Definition Err (p : pgxSeriesIterator) : option error := None.

End Iterator.

(** ** Label assembly (the body of [pgxSeriesSet.At]) *)

(** The loop over [row.labelIds]: [lls] is the slice built so far, [inl id]
    the exit through "Missing label for id". *)
Fixpoint resolveLabels (m : gmap Z Label) (ids : list Z) (lls : Labels)
  : Z + Labels :=
  match ids with
  | [] => inr lls
  | id :: ids' =>
      if id =? 0 then resolveLabels m ids' lls
      else
        match m !! id with
        | None => inl id
        | Some label =>
            if decide (label = zeroLabel) then inl id
            else resolveLabels m ids' (lls ++ [label])
        end
  end.

(** The loop of the metric override: the first label named
    [MetricNameLabelName] gets the new value, then [break]. *)
Fixpoint overrideMetricName (lls : Labels) (override : string) : Labels :=
  match lls with
  | [] => []
  | l :: lls' =>
      if decide (Name l = MetricNameLabelName)
      then mkLabel (Name l) override :: lls'
      else l :: overrideMetricName lls' override
  end.

(** [labels.Labels.Less] of Prometheus: by name, bytewise. *)
Definition Less (a b : Label) : bool := String.ltb (Name a) (Name b).

(** [sort.Sort] of Go's library, as the insertion sort it runs on a short
    slice: each element moves left while it is [Less] than the one before
    it. Go promises no stability, and on a longer slice its algorithm
    leaves labels of the same name in another order than this one does:
    what is true of the code is that the result is ordered by name and a
    rearrangement of the input. The properties of [At] below state its label
    list in those terms only ([StronglySorted name_le] and [Permutation]),
    or on labels whose names are distinct, where the two determine the
    list. *)
Fixpoint insertLabel (x : Label) (s : Labels) : Labels :=
  match s with
  | [] => [x]
  | y :: s' => if Less x y then x :: y :: s' else y :: insertLabel x s'
  end.

Definition sort_Sort (lls : Labels) : Labels :=
  fold_left (fun sorted x => insertLabel x sorted) lls [].

(** ** The cursor over the rows *)

(** One call of [row.Close()], on the row at position [i]. *)
Inductive event : Type := RowClose (i : nat) (row : timescaleRow).

Module SeriesSet.

Definition with_rowIdx (i : Z) (p : pgxSeriesSet) : pgxSeriesSet :=
  {| rowIdx := i; rows := rows p;
     labelIDMap := labelIDMap p; set_err := set_err p |}.

Definition with_err (e : option error) (p : pgxSeriesSet) : pgxSeriesSet :=
  {| rowIdx := rowIdx p; rows := rows p;
     labelIDMap := labelIDMap p; set_err := e |}.

Definition Next (p : pgxSeriesSet) : outcome (bool * pgxSeriesSet) :=
  if len (rows p) <=? rowIdx p then Ok (false, p)
  else
    let p := with_rowIdx (GoInt.incr (rowIdx p)) p in
    if len (rows p) <=? rowIdx p then Ok (false, p)
    else
      match set_err p with
      | None =>
          row ← at_index (rows p) (rowIdx p);
          Ok (true, with_err (err row) p)
      | Some _ => Ok (true, p)
      end.

(** [None] is the [nil] that [At] returns. *)
Definition At (p : pgxSeriesSet) : outcome (option pgxSeries * pgxSeriesSet) :=
  if len (rows p) <=? rowIdx p then Ok (None, p)
  else
    row ← at_index (rows p) (rowIdx p);
    match err row with
    | Some _ => Ok (None, p)
    | None =>
        if negb (ts_Len (times row) =? len (Elements (values row)))
        then Ok (None, with_err (Some ErrInvalidRowData) p)
        else
          let ps := mkSeries [] (times row) (values row) in
          if len (labelIds row) =? 0 then Ok (Some ps, p)
          else
            match resolveLabels (labelIDMap p) (labelIds row) [] with
            | inl id => Ok (None, with_err (Some (ErrMissingLabel id)) p)
            | inr lls =>
                let lls :=
                  if decide (metricOverride row = "")
                  then lls
                  else overrideMetricName lls (metricOverride row) in
                let lls := lls ++ GetAdditionalLabels row in
                Ok (Some (mkSeries (sort_Sort lls) (times row) (values row)), p)
            end
    end.

Definition Err (p : pgxSeriesSet) : option error :=
  match set_err p with
  | Some e => Some (ErrRetrievingSeriesSet e)
  | None => None
  end.

Definition Warnings (p : pgxSeriesSet) : list string := [].

(** [for _, row := range p.rows { row.Close() }]: the calls are appended to
    the trace of the calls made so far. *)
Fixpoint Close_loop (i : nat) (rs : list timescaleRow) (trace : list event)
  : list event :=
  match rs with
  | [] => trace
  | row :: rs' => Close_loop (S i) rs' (trace ++ [RowClose i row])
  end.

Definition Close (p : pgxSeriesSet) (trace : list event) : list event :=
  Close_loop 0 (rows p) trace.

End SeriesSet.

Module Series.

Definition Labels (p : pgxSeries) : Labels := labels p.

Definition Iterator (p : pgxSeries) : pgxSeriesIterator :=
  Iterator.newIterator (series_times p) (series_values p).

End Series.

(** ** Building the cursor *)

(** Modelled from the spec: [initializeLabeIDMap] is defined outside this
    file. "For every row and every non-zero label identifier in that row,
    insert a placeholder key into the mapping". *)
Definition initializeLabeIDMap (m : gmap Z Label) (rs : list timescaleRow)
  : gmap Z Label :=
  fold_left
    (fun m row =>
       fold_left (fun m id => if id =? 0 then m else <[id := zeroLabel]> m)
         (labelIds row) m)
    rs m.

(** Modelled from the spec: the interface [labelQuerier] is declared
    outside this file. "Given a mapping whose keys are label identifiers of
    interest, fills in the corresponding label (name, value) pairs for every
    key, or fails": [LabelsForIdMap] gives the filled map or the error. *)
Record labelQuerier : Type := mkQuerier {
  LabelsForIdMap : gmap Z Label -> error + gmap Z Label
}.

(** The two implementations of [SeriesSet] that [buildSeriesSet] returns;
    [errorSeriesSet] is declared outside this file and only holds the
    error. *)
Inductive SeriesSet : Type :=
  | errorSeriesSet (e : error)
  | pgxSet (p : pgxSeriesSet).

Definition buildSeriesSet (rs : list timescaleRow) (querier : labelQuerier)
  : SeriesSet :=
  let labelIDMap := initializeLabeIDMap ∅ rs in
  match LabelsForIdMap querier labelIDMap with
  | inl e => errorSeriesSet e
  | inr filled =>
      pgxSet {| rows := rs; rowIdx := -1;
                labelIDMap := filled; set_err := None |}
  end.

(** ** Sequences of calls on a cursor *)

Inductive call : Type := CallNext | CallAt | CallErr | CallClose.

(** What a call gave back. *)
Inductive reply : Type :=
  | RNext (b : bool)
  | RAt (s : option pgxSeries)
  | RErr (e : option error)
  | RClose.

Definition do_call (c : call) (st : pgxSeriesSet * list event)
  : outcome (reply * (pgxSeriesSet * list event)) :=
  let '(p, trace) := st in
  match c with
  | CallNext => '(b, q) ← SeriesSet.Next p; Ok (RNext b, (q, trace))
  | CallAt => '(s, q) ← SeriesSet.At p; Ok (RAt s, (q, trace))
  | CallErr => Ok (RErr (SeriesSet.Err p), (p, trace))
  | CallClose => Ok (RClose, (p, SeriesSet.Close p trace))
  end.

Fixpoint run (cs : list call) (st : pgxSeriesSet * list event)
  : outcome (list reply * (pgxSeriesSet * list event)) :=
  match cs with
  | [] => Ok ([], st)
  | c :: cs' =>
      '(r, st1) ← do_call c st;
      '(rs, st2) ← run cs' st1;
      Ok (r :: rs, st2)
  end.

(** ** Vocabulary of the properties *)

(** The sample at position [j] is present: its timestamp can be read and its
    value has the status [Present]. *)
Definition presentb (p : pgxSeriesIterator) (j : Z) : bool :=
  snd (ts_At (it_times p) j) &&
  match index (Elements (it_values p)) j with
  | Some e => bool_decide (Status_ e = Present)
  | None => false
  end.

(** What [newIterator] is given by a series that [pgxSeriesSet.At] built:
    as many values as samples; the count is a Go [int]. *)
Definition wf_iterator (p : pgxSeriesIterator) : Prop :=
  totalSamples p = len (Elements (it_values p)) /\
  totalSamples p <= GoInt.max_int.

(** The passes that one call of [Next] makes at most. *)
Definition Next_bound (p : pgxSeriesIterator) : nat :=
  Z.to_nat (Z.max 1 (totalSamples p - cur p)).

(** The timestamp at position [j]. *)
Definition sampleTs (p : pgxSeriesIterator) (j : Z) : Z :=
  fst (ts_At (it_times p) j).

(** [j] is the first present sample whose timestamp is at least [t]. *)
Definition first_at_or_after (p : pgxSeriesIterator) (t j : Z) : Prop :=
  0 <= j < totalSamples p /\ presentb p j = true /\ t <= sampleTs p j /\
  forall i, 0 <= i < j -> presentb p i = true -> sampleTs p i < t.

(** No present sample has a timestamp of at least [t]. *)
Definition none_at_or_after (p : pgxSeriesIterator) (t : Z) : Prop :=
  forall i, 0 <= i < totalSamples p -> presentb p i = true -> sampleTs p i < t.

(** The passes that one call of [Seek] makes at most. *)
Definition Seek_bound (p : pgxSeriesIterator) : nat :=
  Z.to_nat (totalSamples p + 1).

(** The data of the example: times [0,1,2,3], values [1.0, null, 3.0, null]. *)
Definition example_times : TimestampSeries :=
  listTimestamps [Some 0; Some 1; Some 2; Some 3].

Definition example_values : Float8Array :=
  mkFloat8Array
    [ mkFloat8 1.0%float Present; mkFloat8 0%float Null;
      mkFloat8 3.0%float Present; mkFloat8 0%float Null ].

Definition example_iterator : pgxSeriesIterator :=
  Iterator.newIterator example_times example_values.

(** The cursor is on [row]. *)
Definition positioned (p : pgxSeriesSet) (row : timescaleRow) : Prop :=
  index (rows p) (rowIdx p) = Some row.

(** [At] reaches the assembly of the series of [row]: the cursor is on it,
    it carries no error and has as many timestamps as values. *)
Definition assembles (p : pgxSeriesSet) (row : timescaleRow) : Prop :=
  positioned p row /\ err row = None /\
  ts_Len (times row) = len (Elements (values row)).

(** The identifier has no entry in the mapping, or the zero-value label. *)
Definition missing (m : gmap Z Label) (id : Z) : Prop :=
  m !! id = None \/ m !! id = Some zeroLabel.

(** The identifier resolves to [l]. *)
Definition resolves (m : gmap Z Label) (id : Z) (l : Label) : Prop :=
  m !! id = Some l /\ l <> zeroLabel.

Definition nonzero (id : Z) : bool := negb (id =? 0).

(** The order of [sort.Sort] on labels: by name. *)
Definition name_le (a b : Label) : Prop :=
  String.leb (Name a) (Name b) = true.

(** [i] is the position of the first label named [MetricNameLabelName]. *)
Definition first_metric_name (lls : Labels) (i : nat) : Prop :=
  (exists l, lls !! i = Some l /\ Name l = MetricNameLabelName) /\
  forall j l, (j < i)%nat -> lls !! j = Some l ->
              Name l <> MetricNameLabelName.

(** The label list that [At] sorts: the resolved labels, with the override
    if the row has one, then the additional labels. *)
Definition assembled (row : timescaleRow) (lls : Labels) : Labels :=
  (if decide (metricOverride row = "") then lls
   else overrideMetricName lls (metricOverride row))
  ++ GetAdditionalLabels row.

(** The cursor that [buildSeriesSet] returns when the labels resolve. *)
Definition newSeriesSet (rs : list timescaleRow) (m : gmap Z Label)
  : pgxSeriesSet :=
  {| rowIdx := -1; rows := rs; labelIDMap := m; set_err := None |}.

(** Rows and mappings of the examples. *)
Definition one_timestamp : TimestampSeries := listTimestamps [Some 0].

Definition one_value : Float8Array :=
  mkFloat8Array [mkFloat8 1.0%float Present].

Definition no_values : Float8Array := mkFloat8Array [].

(** Fetched with an error, and with one timestamp for no value. *)
Definition row_fetch_failed : timescaleRow :=
  {| labelIds := []; times := one_timestamp; values := no_values;
     err := Some (ErrUpstream "fetch failed");
     metricOverride := ""; additionalLabels := [] |}.

(** One timestamp for no value. *)
Definition row_bad_lengths : timescaleRow :=
  {| labelIds := []; times := one_timestamp; values := no_values;
     err := None; metricOverride := ""; additionalLabels := [] |}.

(** No label identifier, one additional label. *)
Definition row_no_ids : timescaleRow :=
  {| labelIds := []; times := one_timestamp; values := one_value;
     err := None; metricOverride := "";
     additionalLabels := [mkLabel "job" "a"] |}.

(** Identifiers 2, 0, 1 with an override of the metric name. *)
Definition row_override : timescaleRow :=
  {| labelIds := [2; 0; 1]; times := one_timestamp; values := one_value;
     err := None; metricOverride := "bar";
     additionalLabels := [mkLabel "column" "c"] |}.

(** Identifiers 1 and 7, of which 7 is not in [example_map]. *)
Definition row_missing_label : timescaleRow :=
  {| labelIds := [1; 0; 7]; times := one_timestamp; values := one_value;
     err := None; metricOverride := ""; additionalLabels := [] |}.

Definition example_map : gmap Z Label :=
  <[1 := mkLabel "__name__" "foo"]> (<[2 := mkLabel "job" "a"]> ∅).

(** ** Vocabulary of the further properties *)

(** A row that [At] turns into a series: no error of its own, as many
    timestamps as values, every non-zero identifier resolved. *)
Definition healthy (m : gmap Z Label) (row : timescaleRow) : Prop :=
  err row = None /\
  ts_Len (times row) = len (Elements (values row)) /\
  Forall (fun id => id = 0 \/ exists l, resolves m id l) (labelIds row).

(** The first error that the rows carry, in their order. *)
Definition first_row_error (rs : list timescaleRow) : option error :=
  head (omap err rs).

(** The calls of [Close] among the calls. *)
Definition closes (cs : list call) : nat :=
  length (List.filter (fun c => match c with CallClose => true | _ => false end) cs).

(** The sample at position [j], if it is present. *)
Definition sample_at (p : pgxSeriesIterator) (j : Z) : option (Z * float) :=
  if presentb p j
  then (fun e => (sampleTs p j, Float e)) <$> index (Elements (it_values p)) j
  else None.

(** The present samples, in the order of their positions. *)
Definition present_samples (p : pgxSeriesIterator) : list (Z * float) :=
  omap (sample_at p) (seqZ 0 (totalSamples p)).

(** The loop of a consumer of the iterator,
    [for it.Next() { t, v := it.At(); ... }]: the samples it reads. [calls]
    bounds the calls of [Next], [fuel] is what each call may use. *)
Fixpoint collect (fuel calls : nat) (p : pgxSeriesIterator)
  : outcome (list (Z * float) * pgxSeriesIterator) :=
  match calls with
  | O => OutOfFuel
  | S calls' =>
      '(b, q) ← Iterator.Next fuel p;
      if (b : bool) then
        tv ← Iterator.At q;
        '(rest, r) ← collect fuel calls' q;
        Ok (tv :: rest, r)
      else Ok ([], q)
  end.

(** What the override does to one label when it is the only one with the
    metric name. *)
Definition withMetricName (override : string) (l : Label) : Label :=
  if decide (Name l = MetricNameLabelName) then mkLabel (Name l) override
  else l.

(** A label querier that fills the map with [filled]. *)
Definition querier_filling (filled : gmap Z Label) : labelQuerier :=
  mkQuerier (fun _ => inr filled).

(** The identifiers of [row_override] in another order. *)
Definition row_override_reordered : timescaleRow :=
  {| labelIds := [1; 2; 0]; times := one_timestamp; values := one_value;
     err := None; metricOverride := "bar";
     additionalLabels := [mkLabel "column" "c"] |}.

(** ** Facts about Go integers and slices *)

Lemma incr_no_wrap (z : Z) :
  GoInt.min_int <= z + 1 <= GoInt.max_int -> GoInt.incr z = z + 1.
Proof.
  unfold GoInt.incr, GoInt.wrap, GoInt.min_int, GoInt.max_int.
  intros H. rewrite Z.mod_small; lia.
Qed.

Lemma wrap_in_range (z : Z) : GoInt.in_range (GoInt.wrap z).
Proof.
  unfold GoInt.in_range, GoInt.wrap, GoInt.min_int, GoInt.max_int.
  pose proof (Z.mod_pos_bound (z + 2 ^ 63) (2 ^ 64)). lia.
Qed.

Lemma len_nonneg {A : Type} (s : list A) : 0 <= len s.
Proof. unfold len. lia. Qed.

Lemma index_Some {A : Type} (s : list A) (i : Z) (a : A) :
  index s i = Some a <-> 0 <= i /\ s !! Z.to_nat i = Some a.
Proof.
  unfold index. destruct (Z.ltb_spec i 0); split; intros H1.
  - discriminate.
  - lia.
  - auto.
  - tauto.
Qed.

Lemma index_is_Some {A : Type} (s : list A) (i : Z) :
  is_Some (index s i) <-> 0 <= i < len s.
Proof.
  unfold index, len. destruct (Z.ltb_spec i 0).
  - split; [intros [a Ha]; discriminate | lia].
  - rewrite lookup_lt_is_Some. lia.
Qed.

Lemma index_None {A : Type} (s : list A) (i : Z) :
  index s i = None <-> i < 0 \/ len s <= i.
Proof.
  rewrite eq_None_not_Some, index_is_Some. lia.
Qed.

(** ** The sample iterator: [Next] *)

(** One pass of the loop of [Next]. *)
Lemma Next_loop_step (fuel : nat) (p : pgxSeriesIterator) :
  Iterator.Next_loop (S fuel) p =
    let c := GoInt.incr (cur p) in
    let q := Iterator.with_cur c p in
    if totalSamples p <=? c then Ok (false, q, 1%nat)
    else if presentb p c
         then match index (Elements (it_values p)) c with
              | Some _ => Ok (true, q, 1%nat)
              | None => Panic
              end
         else if snd (ts_At (it_times p) c)
              then match index (Elements (it_values p)) c with
                   | Some _ =>
                       '(b, r, n) ← Iterator.Next_loop fuel q; Ok (b, r, S n)
                   | None => Panic
                   end
              else '(b, r, n) ← Iterator.Next_loop fuel q; Ok (b, r, S n).
Proof.
  cbn [Iterator.Next_loop]. cbv zeta.
  cbn [cur totalSamples it_times it_values Iterator.with_cur].
  destruct (totalSamples p <=? GoInt.incr (cur p)); [reflexivity |].
  unfold presentb, at_index.
  destruct (ts_At (it_times p) (GoInt.incr (cur p))) as [ts ok]. cbn [snd].
  destruct ok; cbn [andb]; [| reflexivity].
  destruct (index (Elements (it_values p)) (GoInt.incr (cur p))) as [e |];
    cbn; [| reflexivity].
  destruct (decide (Status_ e = Present)) as [He | He].
  - rewrite bool_decide_eq_true_2 by exact He. reflexivity.
  - rewrite bool_decide_eq_false_2 by exact He. reflexivity.
Qed.

(** One pass, the increment not wrapping. *)
Lemma Next_loop_unfold (fuel : nat) (p : pgxSeriesIterator) :
  GoInt.min_int <= cur p + 1 <= GoInt.max_int ->
  Iterator.Next_loop (S fuel) p =
    let q := Iterator.with_cur (cur p + 1) p in
    if totalSamples p <=? cur p + 1 then Ok (false, q, 1%nat)
    else if presentb p (cur p + 1)
         then match index (Elements (it_values p)) (cur p + 1) with
              | Some _ => Ok (true, q, 1%nat)
              | None => Panic
              end
         else if snd (ts_At (it_times p) (cur p + 1))
              then match index (Elements (it_values p)) (cur p + 1) with
                   | Some _ =>
                       '(b, r, n) ← Iterator.Next_loop fuel q; Ok (b, r, S n)
                   | None => Panic
                   end
              else '(b, r, n) ← Iterator.Next_loop fuel q; Ok (b, r, S n).
Proof.
  intros Hr. rewrite Next_loop_step, (incr_no_wrap _ Hr). reflexivity.
Qed.

(** A pass that has fuel for the passes after it does not run out. *)
Lemma Next_loop_pass_returns (fuel : nat) (p : pgxSeriesIterator) :
  (totalSamples p <=? GoInt.incr (cur p)) = true \/
    Iterator.Next_loop fuel (Iterator.with_cur (GoInt.incr (cur p)) p)
      <> OutOfFuel ->
  Iterator.Next_loop (S fuel) p <> OutOfFuel.
Proof.
  intros Hrest. rewrite Next_loop_step. cbv zeta.
  destruct (totalSamples p <=? GoInt.incr (cur p)); [discriminate |].
  destruct Hrest as [Hend | Hrest]; [discriminate |].
  assert (Hbind :
    ('(b, r, n) ← Iterator.Next_loop fuel
        (Iterator.with_cur (GoInt.incr (cur p)) p); Ok (b, r, S n))
    <> OutOfFuel).
  { destruct (Iterator.Next_loop fuel _) as [[[b r] n] | |];
      cbn; congruence. }
  destruct (presentb p _);
    [destruct (index _ _); discriminate |].
  destruct (snd _); [destruct (index _ _); [exact Hbind | discriminate] |].
  exact Hbind.
Qed.

(** [Next] returns or panics from any cursor below the largest [int]. *)
Lemma Next_loop_returns_below (fuel : nat) : forall p : pgxSeriesIterator,
  GoInt.min_int - 1 <= cur p < GoInt.max_int ->
  totalSamples p <= GoInt.max_int ->
  (Next_bound p <= fuel)%nat ->
  Iterator.Next_loop fuel p <> OutOfFuel.
Proof.
  induction fuel as [| fuel IH]; intros p Hcur Hmax Hfuel.
  - unfold Next_bound in Hfuel. lia.
  - apply Next_loop_pass_returns.
    rewrite incr_no_wrap by lia.
    destruct (Z.leb_spec (totalSamples p) (cur p + 1)) as [Hend | Hmore];
      [left; reflexivity | right].
    apply IH.
    + cbn. lia.
    + exact Hmax.
    + unfold Next_bound in *. cbn. lia.
Qed.

(** [Next] returns or panics from every cursor that is a Go [int], the
    largest one included, where the increment wraps around. *)
Lemma Next_loop_returns_anywhere (p : pgxSeriesIterator) :
  GoInt.in_range (cur p) -> totalSamples p <= GoInt.max_int ->
  exists fuel : nat, forall fuel' : nat,
    (fuel <= fuel')%nat -> Iterator.Next_loop fuel' p <> OutOfFuel.
Proof.
  intros [Hlo Hhi] Hmax.
  destruct (Z.eq_dec (cur p) GoInt.max_int) as [Htop | Hbelow].
  - exists (S (Z.to_nat (Z.max 1 (totalSamples p - GoInt.min_int)))).
    intros [| fuel'] Hfuel; [lia |].
    apply Next_loop_pass_returns. right.
    assert (Hwrap : GoInt.incr (cur p) = GoInt.min_int)
      by (rewrite Htop; reflexivity).
    rewrite Hwrap. apply Next_loop_returns_below.
    + cbn. unfold GoInt.min_int, GoInt.max_int. lia.
    + exact Hmax.
    + unfold Next_bound. cbn. lia.
  - exists (Next_bound p). intros fuel' Hfuel.
    apply Next_loop_returns_below; [lia | exact Hmax | exact Hfuel].
Qed.

Lemma Next_loop_spec (fuel : nat) : forall p : pgxSeriesIterator,
  wf_iterator p -> -1 <= cur p < GoInt.max_int ->
  (Next_bound p <= fuel)%nat ->
  exists (b : bool) (c : Z) (n : nat),
    Iterator.Next_loop fuel p = Ok (b, Iterator.with_cur c p, n) /\
    c = cur p + Z.of_nat n /\ (1 <= n)%nat /\
    (forall j, cur p < j < c -> presentb p j = false) /\
    (if b then c < totalSamples p /\ presentb p c = true
     else c = Z.max (cur p + 1) (totalSamples p)).
Proof.
  induction fuel as [| fuel IH]; intros p Hwf Hcur Hfuel.
  - unfold Next_bound in Hfuel. lia.
  - assert (Hr : GoInt.min_int <= cur p + 1 <= GoInt.max_int)
      by (unfold GoInt.min_int, GoInt.max_int in *; lia).
    rewrite (Next_loop_unfold _ _ Hr). cbv zeta.
    destruct (Z.leb_spec (totalSamples p) (cur p + 1)) as [Hend | Hmore].
    { exists false, (cur p + 1), 1%nat. repeat split; try lia. }
    destruct Hwf as [Hlen Hmax].
    assert (Hidx : is_Some (index (Elements (it_values p)) (cur p + 1)))
      by (apply index_is_Some; lia).
    destruct Hidx as [e He].
    destruct (presentb p (cur p + 1)) eqn:Hp.
    { rewrite He. exists true, (cur p + 1), 1%nat.
      repeat split; try lia. exact Hp. }
    assert (Hrec : exists (b : bool) (c : Z) (n : nat),
      Iterator.Next_loop fuel (Iterator.with_cur (cur p + 1) p)
        = Ok (b, Iterator.with_cur c p, n) /\
      c = cur p + 1 + Z.of_nat n /\ (1 <= n)%nat /\
      (forall j, cur p + 1 < j < c -> presentb p j = false) /\
      (if b then c < totalSamples p /\ presentb p c = true
       else c = Z.max (cur p + 1 + 1) (totalSamples p))).
    { apply (IH (Iterator.with_cur (cur p + 1) p)).
      - split; assumption.
      - cbn. lia.
      - unfold Next_bound in *. cbn. lia. }
    destruct Hrec as (b & c & n & Hrun & Hc & Hn & Hskip & Hb).
    assert (Hgoal : ('(b0, r, n0) ← Iterator.Next_loop fuel
               (Iterator.with_cur (cur p + 1) p); Ok (b0, r, S n0))
             = Ok (b, Iterator.with_cur c p, S n))
      by (rewrite Hrun; reflexivity).
    assert (Hres : (if snd (ts_At (it_times p) (cur p + 1))
              then match index (Elements (it_values p)) (cur p + 1) with
                   | Some _ =>
                       '(b0, r, n0) ← Iterator.Next_loop fuel
                          (Iterator.with_cur (cur p + 1) p); Ok (b0, r, S n0)
                   | None => Panic
                   end
              else '(b0, r, n0) ← Iterator.Next_loop fuel
                     (Iterator.with_cur (cur p + 1) p); Ok (b0, r, S n0))
             = Ok (b, Iterator.with_cur c p, S n)).
    { rewrite He. destruct (snd _); exact Hgoal. }
    rewrite Hres. exists b, c, (S n). repeat split; try lia.
    + intros j Hj. destruct (Z.eq_dec j (cur p + 1)) as [-> | Hne];
        [exact Hp | apply Hskip; lia].
    + destruct b; [exact Hb | lia].
Qed.

Lemma Next_spec (fuel : nat) (p : pgxSeriesIterator) :
  wf_iterator p -> -1 <= cur p < GoInt.max_int ->
  (Next_bound p <= fuel)%nat ->
  exists (b : bool) (c : Z),
    Iterator.Next fuel p = Ok (b, Iterator.with_cur c p) /\
    cur p < c /\
    (forall j, cur p < j < c -> presentb p j = false) /\
    (if b then c < totalSamples p /\ presentb p c = true
     else totalSamples p <= c /\ c = Z.max (cur p + 1) (totalSamples p)).
Proof.
  intros Hwf Hcur Hfuel.
  destruct (Next_loop_spec fuel p Hwf Hcur Hfuel)
    as (b & c & n & Hrun & Hc & Hn & Hskip & Hb).
  exists b, c. unfold Iterator.Next. rewrite Hrun.
  repeat split; try assumption; try lia.
  destruct b; [exact Hb | lia].
Qed.

(** ** The sample iterator: [Seek] *)

Lemma Seek_loop_spec (fuel : nat) (t : Z) (p0 : pgxSeriesIterator) :
  wf_iterator p0 -> (Seek_bound p0 <= fuel)%nat ->
  forall (calls : nat) (c0 : Z) (steps : nat),
  -1 <= c0 < totalSamples p0 ->
  (Z.to_nat (totalSamples p0 - c0) <= calls)%nat ->
  exists (b : bool) (c : Z) (n : nat),
    Iterator.Seek_loop fuel calls (Iterator.with_cur c0 p0) t steps
      = Ok (b, Iterator.with_cur c p0, (steps + n)%nat) /\
    c = c0 + Z.of_nat n /\
    (forall j, c0 < j < c -> presentb p0 j = true -> sampleTs p0 j < t) /\
    (if b then c < totalSamples p0 /\ presentb p0 c = true /\
              t <= sampleTs p0 c
     else c = totalSamples p0).
Proof.
  intros Hwf Hfuel. pose proof Hwf as [Hlen Hmax].
  induction calls as [| calls IH]; intros c0 steps Hc0 Hcalls; [lia |].
  cbn [Iterator.Seek_loop].
  destruct (Next_loop_spec fuel (Iterator.with_cur c0 p0))
    as (b & c & n & Hrun & Hc & Hn & Hskip & Hb).
  { exact Hwf. }
  { cbn. lia. }
  { unfold Next_bound, Seek_bound in *. cbn. lia. }
  change (Iterator.with_cur c (Iterator.with_cur c0 p0))
    with (Iterator.with_cur c p0) in Hrun.
  change (cur (Iterator.with_cur c0 p0)) with c0 in Hc, Hskip, Hb.
  change (totalSamples (Iterator.with_cur c0 p0))
    with (totalSamples p0) in Hb.
  assert (Hskip0 : forall j, c0 < j < c -> presentb p0 j = false)
    by exact Hskip.
  clear Hskip. rename Hskip0 into Hskip.
  rewrite Hrun. cbn [mbind outcome_bind].
  change (Iterator.getTs (Iterator.with_cur c p0)) with (sampleTs p0 c).
  destruct b.
  - destruct Hb as [Hlt Hpres].
    change (presentb p0 c = true) in Hpres.
    destruct (Z.leb_spec t (sampleTs p0 c)) as [Hge | Hless].
    + exists true, c, n.
      refine (conj eq_refl (conj Hc (conj _ (conj Hlt (conj Hpres Hge))))).
      intros j Hj Hpj. rewrite (Hskip j Hj) in Hpj. discriminate.
    + destruct (IH c (steps + n)%nat) as (b' & c' & n' & Hrun' & Hc' & Hscan & Hb');
        [lia | lia |].
      rewrite Hrun'. exists b', c', (n + n')%nat.
      refine (conj _ (conj _ (conj _ Hb'))); [do 2 f_equal; lia | lia |].
      intros j Hj Hpj.
      destruct (Z.lt_trichotomy j c) as [Hjc | [-> | Hjc]].
      * rewrite (Hskip j) in Hpj by lia. discriminate.
      * exact Hless.
      * apply Hscan; [lia | exact Hpj].
  - exists false, c, n.
    refine (conj eq_refl (conj Hc (conj _ _))); [| lia].
    intros j Hj Hpj. rewrite (Hskip j Hj) in Hpj. discriminate.
Qed.

Lemma Seek_steps_spec (fuel : nat) (t : Z) (p : pgxSeriesIterator) :
  wf_iterator p -> (Seek_bound p <= fuel)%nat ->
  exists (b : bool) (c : Z) (n : nat),
    Iterator.Seek_steps fuel p t = Ok (b, Iterator.with_cur c p, n) /\
    c = -1 + Z.of_nat n /\
    (forall j, 0 <= j < c -> presentb p j = true -> sampleTs p j < t) /\
    (if b then 0 <= c < totalSamples p /\ presentb p c = true /\
              t <= sampleTs p c
     else c = totalSamples p).
Proof.
  intros Hwf Hfuel. pose proof Hwf as [Hlen Hmax].
  pose proof (len_nonneg (Elements (it_values p))) as Hnn.
  destruct (Seek_loop_spec fuel t p Hwf Hfuel fuel (-1) 0%nat)
    as (b & c & n & Hrun & Hc & Hscan & Hb).
  { lia. }
  { unfold Seek_bound in Hfuel. lia. }
  exists b, c, n. unfold Iterator.Seek_steps. rewrite Hrun.
  refine (conj eq_refl (conj Hc (conj _ _))).
  - intros j Hj. apply Hscan. lia.
  - destruct b; [| exact Hb]. destruct Hb as (H1 & H2 & H3).
    refine (conj (conj _ H1) (conj H2 H3)).
    pose proof H2 as H4. unfold presentb in H4. apply andb_true_iff in H2 as [_ H2].
    destruct (index (Elements (it_values p)) c) eqn:Hi; [| discriminate].
    apply index_Some in Hi. lia.
Qed.

(** ** The sample iterator: the claims *)

(** C7. For every sample iterator, [Next()] advances past every position
    whose value is absent or whose timestamp cannot be read: it stops at the
    next present sample and returns true, or returns false with the cursor
    past the range. On times [0,1,2,3] and values [1.0, null, 3.0, null] the
    iterator yields (0,1.0) and (2,3.0), and then [Next()] returns false
    twice. *)
Theorem Next_stops_at_next_present_sample
  (p : pgxSeriesIterator) (fuel : nat)
  (Hwf : wf_iterator p) (Hcur : -1 <= cur p < GoInt.max_int)
  (Hfuel : (Next_bound p <= fuel)%nat) :
  (exists (b : bool) (c : Z),
     Iterator.Next fuel p = Ok (b, Iterator.with_cur c p) /\
     cur p < c /\
     (forall j, cur p < j < c -> presentb p j = false) /\
     (if b then c < totalSamples p /\ presentb p c = true
      else totalSamples p <= c /\ c = Z.max (cur p + 1) (totalSamples p))) /\
  (let it := example_iterator in
   forall extra : nat,
     let enough := (5 + extra)%nat in
     Iterator.Next enough it = Ok (true, Iterator.with_cur 0 it) /\
     Iterator.At (Iterator.with_cur 0 it) = Ok (0, 1.0%float) /\
     Iterator.Next enough (Iterator.with_cur 0 it)
       = Ok (true, Iterator.with_cur 2 it) /\
     Iterator.At (Iterator.with_cur 2 it) = Ok (2, 3.0%float) /\
     Iterator.Next enough (Iterator.with_cur 2 it)
       = Ok (false, Iterator.with_cur 4 it) /\
     Iterator.Next enough (Iterator.with_cur 4 it)
       = Ok (false, Iterator.with_cur 5 it)).
Proof.
  split.
  - exact (Next_spec fuel p Hwf Hcur Hfuel).
  - intros it extra enough. subst it enough.
    repeat split; vm_compute; reflexivity.
Qed.

Lemma Next_stops_at_next_present_sample_witness :
  wf_iterator example_iterator /\
  -1 <= cur example_iterator < GoInt.max_int /\
  (Next_bound example_iterator <= 5)%nat /\
  exists (b : bool) (c : Z),
    Iterator.Next 5 example_iterator
      = Ok (b, Iterator.with_cur c example_iterator) /\
    cur example_iterator < c.
Proof.
  assert (Hwf : wf_iterator example_iterator)
    by (split; [reflexivity | vm_compute; discriminate]).
  assert (Hcur : -1 <= cur example_iterator < GoInt.max_int)
    by (split; [vm_compute; discriminate | reflexivity]).
  assert (Hfuel : (Next_bound example_iterator <= 5)%nat)
    by (vm_compute; lia).
  refine (conj Hwf (conj Hcur (conj Hfuel _))).
  destruct (Next_stops_at_next_present_sample example_iterator 5 Hwf Hcur Hfuel)
    as [(b & c & Hrun & Hlt & _) _].
  exists b, c. exact (conj Hrun Hlt).
Defined.

Lemma Seek_spec (fuel : nat) (t : Z) (p : pgxSeriesIterator) :
  wf_iterator p -> (Seek_bound p <= fuel)%nat ->
  (exists j, first_at_or_after p t j /\
             Iterator.Seek fuel p t = Ok (true, Iterator.with_cur j p)) \/
  (none_at_or_after p t /\
   Iterator.Seek fuel p t
     = Ok (false, Iterator.with_cur (totalSamples p) p)).
Proof.
  intros Hwf Hfuel.
  destruct (Seek_steps_spec fuel t p Hwf Hfuel)
    as (b & c & n & Hrun & Hc & Hscan & Hb).
  unfold Iterator.Seek. rewrite Hrun. cbn [mbind outcome_bind].
  destruct b.
  - left. exists c. destruct Hb as (Hrange & Hpres & Hge).
    split; [| reflexivity]. unfold first_at_or_after. auto.
  - right. subst c. split; [| rewrite <- Hb; reflexivity].
    intros i Hi. apply Hscan. lia.
Qed.

Lemma first_at_or_after_unique (p : pgxSeriesIterator) (t j k : Z) :
  first_at_or_after p t j -> first_at_or_after p t k -> j = k.
Proof.
  intros (Hj & Hpj & Htj & Hminj) (Hk & Hpk & Htk & Hmink).
  destruct (Z.lt_trichotomy j k) as [Hlt | [Heq | Hgt]]; [| exact Heq |].
  - specialize (Hmink j ltac:(lia) Hpj). lia.
  - specialize (Hminj k ltac:(lia) Hpk). lia.
Qed.

Lemma first_excludes_none (p : pgxSeriesIterator) (t j : Z) :
  first_at_or_after p t j -> none_at_or_after p t -> False.
Proof.
  intros (Hj & Hpj & Htj & _) Hnone. specialize (Hnone j Hj Hpj). lia.
Qed.

(** C8. For every sample iterator and every timestamp [t], [Seek(t)] resets
    the cursor to before the first sample and scans forward: it returns true
    with the cursor on the first present sample whose timestamp is at least
    [t] if there is one, and false with the iterator exhausted otherwise,
    wherever the cursor was before the call. On the data of the example
    [Seek(2)] lands on (2,3.0), also from the last position, and [Seek(10)]
    returns false. *)
Theorem Seek_parks_on_first_sample_at_or_after
  (p : pgxSeriesIterator) (t : Z) (fuel : nat)
  (Hwf : wf_iterator p) (Hfuel : (Seek_bound p <= fuel)%nat) :
  (forall j, first_at_or_after p t j ->
     Iterator.Seek fuel p t = Ok (true, Iterator.with_cur j p)) /\
  (none_at_or_after p t ->
     Iterator.Seek fuel p t
       = Ok (false, Iterator.with_cur (totalSamples p) p) /\
     Iterator.At (Iterator.with_cur (totalSamples p) p) = Ok (0, 0%float)) /\
  ((exists j, first_at_or_after p t j) \/ none_at_or_after p t) /\
  (let it := example_iterator in
   forall extra : nat,
     let enough := (5 + extra)%nat in
     Iterator.Seek enough it 2 = Ok (true, Iterator.with_cur 2 it) /\
     Iterator.Seek enough (Iterator.with_cur 3 it) 2
       = Ok (true, Iterator.with_cur 2 it) /\
     Iterator.At (Iterator.with_cur 2 it) = Ok (2, 3.0%float) /\
     Iterator.Seek enough it 10 = Ok (false, Iterator.with_cur 4 it) /\
     Iterator.At (Iterator.with_cur 4 it) = Ok (0, 0%float)).
Proof.
  pose proof (Seek_spec fuel t p Hwf Hfuel) as Hseek.
  split; [| split; [| split]].
  - intros j Hj. destruct Hseek as [(k & Hk & Hrun) | (Hnone & _)].
    + rewrite (first_at_or_after_unique p t j k Hj Hk). exact Hrun.
    + destruct (first_excludes_none p t j Hj Hnone).
  - intros Hnone. split.
    + destruct Hseek as [(k & Hk & _) | (_ & Hrun)]; [| exact Hrun].
      destruct (first_excludes_none p t k Hk Hnone).
    + unfold Iterator.At. cbn [cur totalSamples Iterator.with_cur].
      rewrite Z.leb_refl. reflexivity.
  - destruct Hseek as [(k & Hk & _) | (Hnone & _)]; [left; eauto | right; auto].
  - intros it extra enough. subst it enough.
    repeat split; vm_compute; reflexivity.
Qed.

Lemma Seek_parks_on_first_sample_at_or_after_witness :
  wf_iterator example_iterator /\
  (Seek_bound example_iterator <= 5)%nat /\
  first_at_or_after example_iterator 2 2 /\
  Iterator.Seek 5 example_iterator 2
    = Ok (true, Iterator.with_cur 2 example_iterator).
Proof.
  assert (Hwf : wf_iterator example_iterator)
    by (split; [reflexivity | vm_compute; discriminate]).
  assert (Hfuel : (Seek_bound example_iterator <= 5)%nat)
    by (vm_compute; lia).
  assert (Hfirst : first_at_or_after example_iterator 2 2).
  { split; [split; [vm_compute; discriminate | reflexivity] |].
    split; [reflexivity |]. split; [vm_compute; discriminate |].
    intros i Hi Hp.
    assert (Hcases : i = 0 \/ i = 1) by lia.
    destruct Hcases as [-> | ->]; [reflexivity | discriminate Hp]. }
  refine (conj Hwf (conj Hfuel (conj Hfirst _))).
  exact (proj1 (Seek_parks_on_first_sample_at_or_after
                  example_iterator 2 5 Hwf Hfuel) 2 Hfirst).
Defined.

(** C10. For every sample iterator whose sample count is finite, [Next()]
    terminates: each pass of its loop adds one to the cursor, which the
    sample count bounds; and [Seek(t)] terminates for every [t] after at
    most [totalSamples + 1] passes. The first part is for every cursor that
    is a Go [int], where a call returns or panics; the second is for the
    cursors that calls of [Next] and [Seek] reach, where it returns. *)
Theorem Next_and_Seek_terminate
  (p : pgxSeriesIterator) (t : Z)
  (Hwf : wf_iterator p) (Hrange : GoInt.in_range (cur p)) :
  (exists fuel : nat, forall fuel' : nat,
     (fuel <= fuel')%nat -> Iterator.Next_loop fuel' p <> OutOfFuel) /\
  (-1 <= cur p < GoInt.max_int ->
   forall fuel : nat, (Next_bound p <= fuel)%nat ->
     exists (b : bool) (q : pgxSeriesIterator) (n : nat),
       Iterator.Next_loop fuel p = Ok (b, q, n) /\
       cur q = cur p + Z.of_nat n /\
       (1 <= n <= Next_bound p)%nat /\
       cur q <= Z.max (cur p + 1) (totalSamples p)) /\
  (forall fuel : nat, (Seek_bound p <= fuel)%nat ->
     exists (b : bool) (q : pgxSeriesIterator) (n : nat),
       Iterator.Seek_steps fuel p t = Ok (b, q, n) /\
       cur q = -1 + Z.of_nat n /\
       Z.of_nat n <= totalSamples p + 1).
Proof.
  split; [| split].
  - apply Next_loop_returns_anywhere; [exact Hrange | apply Hwf].
  - intros Hcur fuel Hfuel.
    destruct (Next_loop_spec fuel p Hwf Hcur Hfuel)
      as (b & c & n & Hrun & Hc & Hn & _ & Hb).
    exists b, (Iterator.with_cur c p), n.
    cbn [cur Iterator.with_cur]. unfold Next_bound.
    destruct b; repeat split; try assumption; lia.
  - intros fuel Hfuel.
    destruct (Seek_steps_spec fuel t p Hwf Hfuel)
      as (b & c & n & Hrun & Hc & _ & Hb).
    exists b, (Iterator.with_cur c p), n.
    cbn [cur Iterator.with_cur].
    destruct b; repeat split; try assumption; lia.
Qed.

Lemma Next_and_Seek_terminate_witness :
  wf_iterator example_iterator /\
  GoInt.in_range (cur example_iterator) /\
  exists (b : bool) (q : pgxSeriesIterator) (n : nat),
    Iterator.Seek_steps 5 example_iterator 10 = Ok (b, q, n) /\
    Z.of_nat n <= totalSamples example_iterator + 1.
Proof.
  assert (Hwf : wf_iterator example_iterator)
    by (split; [reflexivity | vm_compute; discriminate]).
  assert (Hrange : GoInt.in_range (cur example_iterator))
    by (split; vm_compute; discriminate).
  refine (conj Hwf (conj Hrange _)).
  destruct (proj2 (proj2 (Next_and_Seek_terminate example_iterator 10
                            Hwf Hrange)) 5%nat)
    as (b & q & n & Hrun & _ & Hn).
  { vm_compute. lia. }
  exists b, q, n. exact (conj Hrun Hn).
Defined.

(** ** Label assembly: resolution *)

Lemma resolveLabels_skips_zero (m : gmap Z Label) (ids : list Z) :
  forall lls : Labels,
  resolveLabels m ids lls = resolveLabels m (List.filter nonzero ids) lls.
Proof.
  induction ids as [| id ids IH]; intros lls; [reflexivity |].
  cbn [resolveLabels List.filter]. unfold nonzero at 1.
  destruct (id =? 0) eqn:Hz; cbn [negb].
  - apply IH.
  - cbn [resolveLabels]. rewrite Hz.
    destruct (m !! id) as [label |]; [| reflexivity].
    destruct (decide (label = zeroLabel)); [reflexivity | apply IH].
Qed.

Lemma resolveLabels_inr (m : gmap Z Label) (ids : list Z) :
  forall lls out : Labels,
  resolveLabels m ids lls = inr out <->
  exists ls, out = lls ++ ls /\
             Forall2 (resolves m) (List.filter nonzero ids) ls.
Proof.
  induction ids as [| id ids IH]; intros lls out; cbn [resolveLabels List.filter].
  - split.
    + intros [= <-]. exists []. rewrite app_nil_r. split; [reflexivity | constructor].
    + intros (ls & -> & Hall). inversion Hall. rewrite app_nil_r. reflexivity.
  - unfold nonzero at 1. destruct (id =? 0) eqn:Hz; cbn [negb]; [apply IH |].
    destruct (m !! id) as [label |] eqn:Hm.
    + destruct (decide (label = zeroLabel)) as [Hzero | Hnz].
      * split; [discriminate |].
        intros (ls & _ & Hall). inversion Hall as [| ? l ? ? [Hl Hne] ]; subst.
        rewrite Hm in Hl. congruence.
      * rewrite IH. split.
        -- intros (ls & -> & Hall). exists (label :: ls).
           rewrite <- app_assoc. split; [reflexivity |].
           constructor; [split; assumption | exact Hall].
        -- intros (ls & -> & Hall).
           inversion Hall as [| ? l ? ls' [Hl Hne] Hrest]; subst.
           rewrite Hm in Hl. injection Hl as <-.
           exists ls'. rewrite <- app_assoc. split; [reflexivity | exact Hrest].
    + split; [discriminate |].
      intros (ls & _ & Hall). inversion Hall as [| ? l ? ? [Hl Hne] ]; subst.
      rewrite Hm in Hl. discriminate.
Qed.

Lemma resolveLabels_inl (m : gmap Z Label) (ids : list Z) (id : Z) :
  forall lls : Labels,
  resolveLabels m ids lls = inl id ->
  In id ids /\ id <> 0 /\ missing m id.
Proof.
  induction ids as [| i ids IH]; intros lls; cbn [resolveLabels]; [discriminate |].
  destruct (Z.eqb_spec i 0) as [Hz | Hnz].
  - intros H. destruct (IH _ H) as (Hin & Hne & Hmiss).
    split; [right; exact Hin | split; assumption].
  - destruct (m !! i) as [label |] eqn:Hm.
    + destruct (decide (label = zeroLabel)) as [-> | Hl].
      * intros [= <-]. split; [left; reflexivity |].
        split; [exact Hnz | right; exact Hm].
      * intros H. destruct (IH _ H) as (Hin & Hne & Hmiss).
        split; [right; exact Hin | split; assumption].
    + intros [= <-]. split; [left; reflexivity |].
      split; [exact Hnz | left; exact Hm].
Qed.

Lemma resolveLabels_missing (m : gmap Z Label) (ids : list Z) (id : Z) :
  In id ids -> id <> 0 -> missing m id ->
  forall lls : Labels, exists id', resolveLabels m ids lls = inl id'.
Proof.
  intros Hin Hne Hmiss.
  induction ids as [| i ids IH]; intros lls; [destruct Hin |].
  cbn [resolveLabels].
  destruct (Z.eqb_spec i 0) as [Hz | Hnz].
  - destruct Hin as [-> | Hin]; [contradiction |]. apply IH, Hin.
  - destruct (m !! i) as [label |] eqn:Hm; [| eauto].
    destruct (decide (label = zeroLabel)) as [-> | Hl]; [eauto |].
    destruct Hin as [-> | Hin]; [| apply IH, Hin].
    destruct Hmiss as [Hnone | Hzero]; congruence.
Qed.

(** ** Label assembly: the metric override *)

Lemma overrideMetricName_names (lls : Labels) (override : string) :
  map Name (overrideMetricName lls override) = map Name lls.
Proof.
  induction lls as [| l lls IH]; [reflexivity |].
  cbn [overrideMetricName].
  destruct (decide (Name l = MetricNameLabelName)); cbn; [reflexivity |].
  f_equal. exact IH.
Qed.

Lemma overrideMetricName_absent (lls : Labels) (override : string) :
  (forall l, In l lls -> Name l <> MetricNameLabelName) ->
  overrideMetricName lls override = lls.
Proof.
  induction lls as [| l lls IH]; intros Hnone; [reflexivity |].
  cbn [overrideMetricName].
  destruct (decide (Name l = MetricNameLabelName)) as [Heq | _].
  - destruct (Hnone l (or_introl eq_refl) Heq).
  - f_equal. apply IH. intros l' Hl'. apply Hnone. right. exact Hl'.
Qed.

Lemma overrideMetricName_first (lls : Labels) (override : string) :
  forall i : nat, first_metric_name lls i ->
  overrideMetricName lls override
    = <[i := mkLabel MetricNameLabelName override]> lls.
Proof.
  induction lls as [| l lls IH]; intros i [(l0 & Hl0 & Hname) Hfirst].
  - destruct i; discriminate Hl0.
  - cbn [overrideMetricName].
    destruct (decide (Name l = MetricNameLabelName)) as [Heq | Hne].
    + destruct i as [| i].
      * cbn. rewrite Heq. reflexivity.
      * destruct (Hfirst 0%nat l ltac:(lia) eq_refl Heq).
    + destruct i as [| i].
      * cbn in Hl0. injection Hl0 as ->. contradiction.
      * cbn. f_equal. apply IH. split; [exists l0; split; assumption |].
        intros j l' Hj Hl'. apply (Hfirst (S j) l'); [lia | exact Hl'].
Qed.

Lemma first_metric_name_or_absent (lls : Labels) :
  (exists i, first_metric_name lls i) \/
  (forall l, In l lls -> Name l <> MetricNameLabelName).
Proof.
  induction lls as [| l lls IH]; [right; intros l [] |].
  destruct (decide (Name l = MetricNameLabelName)) as [Heq | Hne].
  - left. exists 0%nat. split; [exists l; split; [reflexivity | exact Heq] |].
    intros j l' Hj. lia.
  - destruct IH as [(i & (l0 & Hl0 & Hname) & Hfirst) | Hnone].
    + left. exists (S i). split; [exists l0; split; assumption |].
      intros [| j] l' Hj Hl'.
      * cbn in Hl'. injection Hl' as <-. exact Hne.
      * apply (Hfirst j l'); [lia | exact Hl'].
    + right. intros l' [<- | Hin]; [exact Hne | apply Hnone, Hin].
Qed.

(** ** Label assembly: the sort *)

Lemma string_ltb_leb (a b : string) :
  String.ltb a b = true -> String.leb a b = true.
Proof.
  unfold String.ltb, String.leb. destruct (String.compare a b); easy.
Qed.

Lemma string_nltb_leb (a b : string) :
  String.ltb a b = false -> String.leb b a = true.
Proof.
  unfold String.ltb, String.leb. rewrite (String.compare_antisym a b).
  destruct (String.compare b a); easy.
Qed.

Lemma string_leb_trans (a b c : string) :
  String.leb a b = true -> String.leb b c = true -> String.leb a c = true.
Proof.
  unfold String.leb. intros Hab Hbc.
  destruct (String.compare a b) eqn:Eab; [| | discriminate].
  - apply String.compare_eq_iff in Eab. subst b. exact Hbc.
  - destruct (String.compare b c) eqn:Ebc; [| | discriminate].
    + apply String.compare_eq_iff in Ebc. subst c. rewrite Eab. reflexivity.
    + assert (Hac : String.compare a c = Lt).
      { apply OrderedTypeEx.String_as_OT.cmp_lt.
        apply (OrderedTypeEx.String_as_OT.lt_trans a b c);
          apply OrderedTypeEx.String_as_OT.cmp_lt; assumption. }
      rewrite Hac. reflexivity.
Qed.

Lemma name_le_trans (a b c : Label) : name_le a b -> name_le b c -> name_le a c.
Proof. unfold name_le. apply string_leb_trans. Qed.

Lemma insertLabel_Permutation (x : Label) (s : Labels) :
  Permutation (insertLabel x s) (x :: s).
Proof.
  induction s as [| y s IH]; cbn [insertLabel]; [reflexivity |].
  destruct (Less x y); [reflexivity |].
  rewrite IH. apply perm_swap.
Qed.

Lemma insertLabel_sorted (x : Label) (s : Labels) :
  StronglySorted name_le s -> StronglySorted name_le (insertLabel x s).
Proof.
  induction s as [| y s IH]; intros Hs; cbn [insertLabel].
  - constructor; constructor.
  - inversion Hs as [| ? ? Hs' Hall]; subst.
    destruct (Less x y) eqn:Hless.
    + constructor; [exact Hs |].
      assert (Hxy : name_le x y) by (apply string_ltb_leb; exact Hless).
      constructor; [exact Hxy |].
      eapply Forall_impl; [exact Hall |].
      intros z Hyz. exact (name_le_trans x y z Hxy Hyz).
    + constructor; [apply IH; exact Hs' |].
      rewrite (insertLabel_Permutation x s).
      constructor; [apply string_nltb_leb; exact Hless | exact Hall].
Qed.

Lemma sort_fold_Permutation (l : Labels) : forall sorted : Labels,
  Permutation (fold_left (fun s x => insertLabel x s) l sorted) (sorted ++ l).
Proof.
  induction l as [| x l IH]; intros sorted; cbn [fold_left].
  - rewrite app_nil_r. reflexivity.
  - rewrite IH, insertLabel_Permutation.
    change (x :: sorted) with ([x] ++ sorted).
    rewrite (Permutation_app_comm [x] sorted), <- app_assoc. reflexivity.
Qed.

Lemma sort_fold_sorted (l : Labels) : forall sorted : Labels,
  StronglySorted name_le sorted ->
  StronglySorted name_le (fold_left (fun s x => insertLabel x s) l sorted).
Proof.
  induction l as [| x l IH]; intros sorted Hs; cbn [fold_left]; [exact Hs |].
  apply IH, insertLabel_sorted, Hs.
Qed.

Lemma sort_Sort_Permutation (lls : Labels) : Permutation (sort_Sort lls) lls.
Proof. unfold sort_Sort. rewrite sort_fold_Permutation. reflexivity. Qed.

Lemma sort_Sort_sorted (lls : Labels) : StronglySorted name_le (sort_Sort lls).
Proof. unfold sort_Sort. apply sort_fold_sorted. constructor. Qed.

(** ** The cursor: [Next], [At], [Err] *)

Lemma positioned_in_range (p : pgxSeriesSet) (row : timescaleRow) :
  positioned p row -> 0 <= rowIdx p < len (rows p).
Proof.
  intros H. apply index_is_Some. rewrite H. eexists; reflexivity.
Qed.

Lemma Next_exhausted (p : pgxSeriesSet) :
  len (rows p) <= rowIdx p -> SeriesSet.Next p = Ok (false, p).
Proof.
  intros H. unfold SeriesSet.Next.
  destruct (Z.leb_spec (len (rows p)) (rowIdx p)); [reflexivity | lia].
Qed.

Lemma At_exhausted (p : pgxSeriesSet) :
  len (rows p) <= rowIdx p -> SeriesSet.At p = Ok (None, p).
Proof.
  intros H. unfold SeriesSet.At.
  destruct (Z.leb_spec (len (rows p)) (rowIdx p)); [reflexivity | lia].
Qed.

Lemma Next_false (p q : pgxSeriesSet) :
  SeriesSet.Next p = Ok (false, q) ->
  len (rows q) <= rowIdx q /\ rows q = rows p /\
  labelIDMap q = labelIDMap p /\ set_err q = set_err p.
Proof.
  unfold SeriesSet.Next.
  destruct (Z.leb_spec (len (rows p)) (rowIdx p)) as [Hend | Hmore].
  { intros [= <-]. auto. }
  cbn [rows rowIdx set_err SeriesSet.with_rowIdx].
  destruct (Z.leb_spec (len (rows p)) (GoInt.incr (rowIdx p))) as [Hend | _].
  { intros [= <-]. cbn. auto. }
  destruct (set_err p); [discriminate |].
  unfold at_index. destruct (index _ _); cbn; discriminate.
Qed.

Lemma Next_true (p q : pgxSeriesSet) :
  SeriesSet.Next p = Ok (true, q) ->
  rowIdx p < len (rows p) /\ rowIdx q = GoInt.incr (rowIdx p) /\
  rowIdx q < len (rows q) /\ rows q = rows p /\
  labelIDMap q = labelIDMap p /\
  match set_err p with
  | Some e => set_err q = Some e
  | None => exists row, positioned q row /\ set_err q = err row
  end.
Proof.
  unfold SeriesSet.Next.
  destruct (Z.leb_spec (len (rows p)) (rowIdx p)) as [Hend | Hmore];
    [discriminate |].
  cbn [rows rowIdx set_err SeriesSet.with_rowIdx].
  destruct (Z.leb_spec (len (rows p)) (GoInt.incr (rowIdx p))) as [| Hin];
    [discriminate |].
  destruct (set_err p) as [e |] eqn:He.
  - intros [= <-]. cbn. rewrite He. auto 10.
  - unfold at_index.
    destruct (index (rows p) (GoInt.incr (rowIdx p))) as [row |] eqn:Hrow;
      cbn; [| discriminate].
    intros [= <-]. cbn. repeat split; try assumption.
    exists row. split; [exact Hrow | reflexivity].
Qed.

(** [Next] on a cursor that is before or on a row, the rows being as many as
    a Go slice can hold. *)
Lemma Next_advances (p : pgxSeriesSet) :
  -1 <= rowIdx p < len (rows p) -> len (rows p) <= GoInt.max_int ->
  rowIdx p + 1 < len (rows p) ->
  exists row, index (rows p) (rowIdx p + 1) = Some row /\
    SeriesSet.Next p =
      Ok (true,
          {| rowIdx := rowIdx p + 1; rows := rows p;
             labelIDMap := labelIDMap p;
             set_err := match set_err p with
                        | Some e => Some e
                        | None => err row
                        end |}).
Proof.
  intros Hidx Hmax Hnext.
  assert (Hrow : is_Some (index (rows p) (rowIdx p + 1)))
    by (apply index_is_Some; lia).
  destruct Hrow as [row Hrow]. exists row. split; [exact Hrow |].
  unfold SeriesSet.Next.
  destruct (Z.leb_spec (len (rows p)) (rowIdx p)); [lia |].
  rewrite incr_no_wrap
    by (unfold GoInt.min_int, GoInt.max_int in *; lia).
  cbn [rows rowIdx set_err SeriesSet.with_rowIdx].
  destruct (Z.leb_spec (len (rows p)) (rowIdx p + 1)); [lia |].
  destruct (set_err p) as [e |] eqn:He.
  - unfold SeriesSet.with_rowIdx. rewrite He. reflexivity.
  - unfold at_index. rewrite Hrow. cbn. unfold SeriesSet.with_err.
    cbn. reflexivity.
Qed.

(** [At] on a row that reaches the assembly. *)
Lemma At_assembles (p : pgxSeriesSet) (row : timescaleRow) :
  assembles p row ->
  SeriesSet.At p =
    if len (labelIds row) =? 0
    then Ok (Some (mkSeries [] (times row) (values row)), p)
    else match resolveLabels (labelIDMap p) (labelIds row) [] with
         | inl id =>
             Ok (None, SeriesSet.with_err (Some (ErrMissingLabel id)) p)
         | inr lls =>
             Ok (Some (mkSeries (sort_Sort (assembled row lls))
                         (times row) (values row)), p)
         end.
Proof.
  intros (Hpos & Herr & Hlen).
  pose proof (positioned_in_range p row Hpos) as Hrange.
  unfold SeriesSet.At.
  destruct (Z.leb_spec (len (rows p)) (rowIdx p)); [lia |].
  unfold at_index. rewrite Hpos. cbn [mbind outcome_bind].
  rewrite Herr, Hlen, Z.eqb_refl. cbn [negb].
  reflexivity.
Qed.

Lemma labelIds_empty (row : timescaleRow) :
  (len (labelIds row) =? 0) = true <-> labelIds row = [].
Proof.
  rewrite Z.eqb_eq. unfold len.
  destruct (labelIds row); cbn; split; (congruence || lia).
Qed.

(** What [At] needs to return a series. *)
Lemma At_Some (p q : pgxSeriesSet) (row : timescaleRow) (s : pgxSeries) :
  positioned p row -> SeriesSet.At p = Ok (Some s, q) -> assembles p row.
Proof.
  intros Hpos. pose proof (positioned_in_range p row Hpos) as Hrange.
  unfold SeriesSet.At.
  destruct (Z.leb_spec (len (rows p)) (rowIdx p)); [lia |].
  unfold at_index. rewrite Hpos. cbn [mbind outcome_bind].
  destruct (err row) eqn:Herr; [discriminate |].
  destruct (Z.eqb_spec (ts_Len (times row)) (len (Elements (values row))))
    as [Hlen | Hlen]; cbn [negb]; [| discriminate].
  intros _. repeat split; assumption.
Qed.

(** The iterator of a series that [At] returned has as many values as
    samples and starts before the first one. *)
Lemma At_series_iterator (p q : pgxSeriesSet) (row : timescaleRow)
  (s : pgxSeries) :
  positioned p row -> SeriesSet.At p = Ok (Some s, q) ->
  let it := Series.Iterator s in
  cur it = -1 /\ totalSamples it = len (Elements (it_values it)) /\
  it_times it = times row /\ it_values it = values row.
Proof.
  intros Hpos HAt. pose proof (At_Some p q row s Hpos HAt) as Hasm.
  rewrite (At_assembles p row Hasm) in HAt.
  destruct Hasm as (_ & _ & Hlen).
  destruct (len (labelIds row) =? 0).
  - injection HAt as <- _. cbn. auto.
  - destruct (resolveLabels _ _ _); [discriminate |].
    injection HAt as <- _. cbn. auto.
Qed.

Lemma At_series_iterator_wf (p q : pgxSeriesSet) (row : timescaleRow)
  (s : pgxSeries) :
  positioned p row -> SeriesSet.At p = Ok (Some s, q) ->
  len (Elements (values row)) <= GoInt.max_int ->
  wf_iterator (Series.Iterator s) /\ cur (Series.Iterator s) = -1.
Proof.
  intros Hpos HAt Hmax.
  destruct (At_series_iterator p q row s Hpos HAt) as (Hcur & Hlen & _ & Hv).
  split; [| exact Hcur]. split; [exact Hlen |].
  rewrite Hlen, Hv. exact Hmax.
Qed.

Lemma buildSeriesSet_pgx (rs : list timescaleRow) (querier : labelQuerier)
  (p : pgxSeriesSet) :
  buildSeriesSet rs querier = pgxSet p -> exists m, p = newSeriesSet rs m.
Proof.
  unfold buildSeriesSet. destruct (LabelsForIdMap querier _) as [e | m].
  - discriminate.
  - intros [= <-]. exists m. reflexivity.
Qed.

(** The part of the sticky error that holds: [Next] keeps an error that is
    set, and no call clears one. *)
Lemma Next_keeps_sticky_error (p q : pgxSeriesSet) (b : bool) (e : error) :
  SeriesSet.Next p = Ok (b, q) -> set_err p = Some e -> set_err q = Some e.
Proof.
  intros Hnext He. destruct b.
  - apply Next_true in Hnext as (_ & _ & _ & _ & _ & Herr).
    rewrite He in Herr. exact Herr.
  - apply Next_false in Hnext as (_ & _ & _ & Herr). congruence.
Qed.

Lemma sticky_error_never_cleared (c : call) (p q : pgxSeriesSet)
  (trace trace' : list event) (r : reply) :
  do_call c (p, trace) = Ok (r, (q, trace')) ->
  is_Some (set_err p) -> is_Some (set_err q).
Proof.
  intros Hcall [e He]. destruct c; cbn [do_call] in Hcall.
  - destruct (SeriesSet.Next p) as [[b q'] | |] eqn:Hnext; try discriminate.
    cbn in Hcall. injection Hcall as _ <- _.
    exists e. exact (Next_keeps_sticky_error p q' b e Hnext He).
  - unfold SeriesSet.At in Hcall.
    destruct (len (rows p) <=? rowIdx p).
    { injection Hcall as _ <- _. eauto. }
    destruct (at_index (rows p) (rowIdx p)) as [row | |]; try discriminate.
    cbn [mbind outcome_bind] in Hcall.
    destruct (err row). { injection Hcall as _ <- _. eauto. }
    destruct (negb _). { injection Hcall as _ <- _. cbn. eauto. }
    destruct (len (labelIds row) =? 0). { injection Hcall as _ <- _. eauto. }
    destruct (resolveLabels _ _ _); injection Hcall as _ <- _; cbn; eauto.
  - injection Hcall as _ <- _. eauto.
  - injection Hcall as _ <- _. eauto.
Qed.

(** C1. The code at the input that breaks the claim: the first row was
    fetched with an error, which [Next] latches and [Err] reports; the
    second row has one timestamp for no value, and [At] on it puts the
    invalid-row-data error in the place of the first error, which [Err]
    reports from then on. *)
Theorem sticky_error_replaced_by_later_failure :
  let p0 := newSeriesSet [row_fetch_failed; row_bad_lengths] ∅ in
  let first := ErrUpstream "fetch failed" in
  exists final : pgxSeriesSet * list event,
    run [CallNext; CallErr; CallNext; CallAt; CallErr] (p0, []) =
      Ok ([ RNext true; RErr (Some (ErrRetrievingSeriesSet first));
            RNext true; RAt None;
            RErr (Some (ErrRetrievingSeriesSet ErrInvalidRowData)) ],
          final) /\
    set_err (fst final) = Some ErrInvalidRowData /\
    set_err (fst final) <> Some first.
Proof.
  eexists. split; [vm_compute; reflexivity |].
  split; [reflexivity | discriminate].
Qed.

(** The part of exhaustion that holds: once [Next] has returned false it
    returns false again and changes nothing, and [At] returns nothing. *)
Lemma Next_false_is_terminal (p q : pgxSeriesSet) :
  SeriesSet.Next p = Ok (false, q) ->
  SeriesSet.Next q = Ok (false, q) /\ SeriesSet.At q = Ok (None, q).
Proof.
  intros Hnext. apply Next_false in Hnext as (Hend & _).
  split; [apply Next_exhausted | apply At_exhausted]; exact Hend.
Qed.

(** C2. The code at the input that breaks the claim: on the cursor that
    [buildSeriesSet] returns, whatever its rows, [At()] before any [Next()]
    indexes the rows at -1 and panics. *)
Theorem At_before_Next_panics (rs : list timescaleRow)
  (querier : labelQuerier) :
  match buildSeriesSet rs querier with
  | pgxSet p => rowIdx p = -1 /\ SeriesSet.At p = Panic
  | errorSeriesSet _ => True
  end.
Proof.
  destruct (buildSeriesSet rs querier) as [e | p] eqn:Hbuild; [exact I |].
  apply buildSeriesSet_pgx in Hbuild as [m ->].
  split; [reflexivity |].
  unfold SeriesSet.At. cbn [rows rowIdx newSeriesSet].
  destruct (Z.leb_spec (len rs) (-1)) as [Hle | _].
  - pose proof (len_nonneg rs). lia.
  - reflexivity.
Qed.

(** C3, as the claim states it, fails on a row that carries an error of
    its own: [At] returns nothing before it compares the lengths, and [Err]
    reports the error of the row. *)
Lemma invalid_row_data_counterexample :
  let p := newSeriesSet [row_fetch_failed] ∅ in
  let q := {| rowIdx := 0; rows := [row_fetch_failed]; labelIDMap := ∅;
              set_err := Some (ErrUpstream "fetch failed") |} in
  SeriesSet.Next p = Ok (true, q) /\
  positioned q row_fetch_failed /\
  ts_Len (times row_fetch_failed)
    <> len (Elements (values row_fetch_failed)) /\
  SeriesSet.At q = Ok (None, q) /\
  SeriesSet.Err q
    = Some (ErrRetrievingSeriesSet (ErrUpstream "fetch failed")) /\
  SeriesSet.Err q <> Some (ErrRetrievingSeriesSet ErrInvalidRowData).
Proof.
  cbv zeta. split; [vm_compute; reflexivity |].
  split; [reflexivity |]. split; [vm_compute; discriminate |].
  split; [vm_compute; reflexivity |].
  split; [reflexivity | discriminate].
Qed.

(** C3, amended. For every row positioned by a successful [Next()] that
    carries no error of its own and whose timestamp sequence length differs
    from its value sequence length, [At()] at that position returns nothing
    and the cursor's [Err()] then reports the invalid-row-data error. *)
Theorem At_reports_invalid_row_data
  (p q : pgxSeriesSet) (row : timescaleRow)
  (Hnext : SeriesSet.Next p = Ok (true, q))
  (Hpos : positioned q row)
  (Herr : err row = None)
  (Hlen : ts_Len (times row) <> len (Elements (values row))) :
  exists q',
    SeriesSet.At q = Ok (None, q') /\
    SeriesSet.Err q' = Some (ErrRetrievingSeriesSet ErrInvalidRowData) /\
    rowIdx q' = rowIdx q /\ rows q' = rows q.
Proof.
  exists (SeriesSet.with_err (Some ErrInvalidRowData) q).
  pose proof (positioned_in_range q row Hpos) as Hrange.
  split; [| repeat split].
  unfold SeriesSet.At.
  destruct (Z.leb_spec (len (rows q)) (rowIdx q)); [lia |].
  unfold at_index. rewrite Hpos. cbn [mbind outcome_bind]. rewrite Herr.
  destruct (Z.eqb_spec (ts_Len (times row)) (len (Elements (values row))));
    [contradiction | reflexivity].
Qed.

Lemma At_reports_invalid_row_data_witness :
  let p := newSeriesSet [row_bad_lengths] ∅ in
  let q := {| rowIdx := 0; rows := [row_bad_lengths]; labelIDMap := ∅;
              set_err := None |} in
  SeriesSet.Next p = Ok (true, q) /\
  positioned q row_bad_lengths /\
  err row_bad_lengths = None /\
  ts_Len (times row_bad_lengths) <> len (Elements (values row_bad_lengths)) /\
  exists q',
    SeriesSet.At q = Ok (None, q') /\
    SeriesSet.Err q' = Some (ErrRetrievingSeriesSet ErrInvalidRowData).
Proof.
  cbv zeta.
  assert (Hnext : SeriesSet.Next (newSeriesSet [row_bad_lengths] ∅)
            = Ok (true, {| rowIdx := 0; rows := [row_bad_lengths];
                           labelIDMap := ∅; set_err := None |}))
    by (vm_compute; reflexivity).
  assert (Hlen : ts_Len (times row_bad_lengths)
            <> len (Elements (values row_bad_lengths)))
    by (vm_compute; discriminate).
  refine (conj Hnext (conj eq_refl (conj eq_refl (conj Hlen _)))).
  destruct (At_reports_invalid_row_data _ _ row_bad_lengths Hnext
              eq_refl eq_refl Hlen) as (q' & HAt & HErr & _).
  exists q'. exact (conj HAt HErr).
Defined.

(** ** The cursor: label assembly in [At] *)

(** C4. During the assembly of a series in [At()] every zero label
    identifier is skipped; when every non-zero identifier resolves, [At()]
    returns a series whose labels are, ordered by name, those of the
    non-zero identifiers (with the override, if any) and the additional
    ones; and for every non-zero identifier whose entry in the mapping is
    absent or is the zero-value label the assembly aborts: [At()] returns
    nothing and [Err()] reports a missing label for an identifier of the
    row. *)
Theorem At_skips_zero_and_aborts_on_missing_label
  (p : pgxSeriesSet) (row : timescaleRow) (Hasm : assembles p row) :
  resolveLabels (labelIDMap p) (labelIds row) []
    = resolveLabels (labelIDMap p) (List.filter nonzero (labelIds row)) [] /\
  (forall lls,
     labelIds row <> [] ->
     Forall2 (resolves (labelIDMap p))
       (List.filter nonzero (labelIds row)) lls ->
     exists s : pgxSeries,
       SeriesSet.At p = Ok (Some s, p) /\
       Permutation (labels s) (assembled row lls) /\
       StronglySorted name_le (labels s) /\
       series_times s = times row /\ series_values s = values row) /\
  (forall id,
     In id (labelIds row) -> id <> 0 -> missing (labelIDMap p) id ->
     exists id' q,
       In id' (labelIds row) /\ id' <> 0 /\ missing (labelIDMap p) id' /\
       SeriesSet.At p = Ok (None, q) /\
       SeriesSet.Err q = Some (ErrRetrievingSeriesSet (ErrMissingLabel id'))).
Proof.
  split; [apply resolveLabels_skips_zero |]. split.
  - intros lls Hne Hall. rewrite (At_assembles p row Hasm).
    destruct (len (labelIds row) =? 0) eqn:Hempty.
    { apply labelIds_empty in Hempty. contradiction. }
    assert (Hres : resolveLabels (labelIDMap p) (labelIds row) [] = inr lls)
      by (apply resolveLabels_inr; exists lls; split; [reflexivity | exact Hall]).
    rewrite Hres. eexists. split; [reflexivity |]. cbn [labels].
    split; [apply sort_Sort_Permutation |].
    split; [apply sort_Sort_sorted |]. split; reflexivity.
  - intros id Hin Hnz Hmiss.
    destruct (resolveLabels_missing (labelIDMap p) (labelIds row) id
                Hin Hnz Hmiss []) as [id' Hres].
    destruct (resolveLabels_inl _ _ _ _ Hres) as (Hin' & Hnz' & Hmiss').
    exists id', (SeriesSet.with_err (Some (ErrMissingLabel id')) p).
    repeat split; try assumption.
    rewrite (At_assembles p row Hasm).
    destruct (len (labelIds row) =? 0) eqn:Hempty.
    { apply labelIds_empty in Hempty. rewrite Hempty in Hin. destruct Hin. }
    rewrite Hres. reflexivity.
Qed.

Lemma At_skips_zero_and_aborts_on_missing_label_witness :
  let p := {| rowIdx := 0; rows := [row_missing_label];
              labelIDMap := example_map; set_err := None |} in
  assembles p row_missing_label /\
  In 7 (labelIds row_missing_label) /\
  missing (labelIDMap p) 7 /\
  exists id' q,
    SeriesSet.At p = Ok (None, q) /\
    SeriesSet.Err q = Some (ErrRetrievingSeriesSet (ErrMissingLabel id')).
Proof.
  cbv zeta.
  assert (Hasm : assembles
            {| rowIdx := 0; rows := [row_missing_label];
               labelIDMap := example_map; set_err := None |}
            row_missing_label)
    by (split; [reflexivity | split; reflexivity]).
  assert (Hin : In 7 (labelIds row_missing_label))
    by (right; right; left; reflexivity).
  assert (Hmiss : missing example_map 7) by (left; reflexivity).
  refine (conj Hasm (conj Hin (conj Hmiss _))).
  destruct (proj2 (proj2 (At_skips_zero_and_aborts_on_missing_label
                            _ row_missing_label Hasm)) 7 Hin
              ltac:(discriminate) Hmiss)
    as (id' & q & _ & _ & _ & HAt & HErr).
  exists id', q. exact (conj HAt HErr).
Defined.

(** C5. For every row with a non-empty [metricOverride], the assembly
    replaces the value of exactly the first resolved label whose name is the
    metric-name label and leaves the names and every other label as they
    are, later labels of that name included; if no resolved label has that
    name the override changes nothing, and the assembly succeeds: [At()]
    returns a series whose labels are, ordered by name, these labels and the
    additional ones. *)
Theorem At_overrides_first_metric_name
  (p : pgxSeriesSet) (row : timescaleRow) (lls : Labels)
  (Hasm : assembles p row)
  (Hres : resolveLabels (labelIDMap p) (labelIds row) [] = inr lls)
  (Hover : metricOverride row <> "") :
  exists lls' : Labels,
    map Name lls' = map Name lls /\
    (forall i, first_metric_name lls i ->
       lls' = <[i := mkLabel MetricNameLabelName (metricOverride row)]> lls) /\
    ((forall l, In l lls -> Name l <> MetricNameLabelName) -> lls' = lls) /\
    ((exists i, first_metric_name lls i) \/
     (forall l, In l lls -> Name l <> MetricNameLabelName)) /\
    exists s : pgxSeries,
      SeriesSet.At p = Ok (Some s, p) /\
      (labelIds row = [] -> labels s = []) /\
      (labelIds row <> [] ->
       Permutation (labels s) (lls' ++ GetAdditionalLabels row)) /\
      StronglySorted name_le (labels s) /\
      series_times s = times row /\ series_values s = values row.
Proof.
  exists (overrideMetricName lls (metricOverride row)).
  split; [apply overrideMetricName_names |].
  split; [intros i Hi; apply overrideMetricName_first, Hi |].
  split; [apply overrideMetricName_absent |].
  split; [apply first_metric_name_or_absent |].
  rewrite (At_assembles p row Hasm), Hres.
  destruct (len (labelIds row) =? 0) eqn:Hempty.
  - apply labelIds_empty in Hempty. eexists. split; [reflexivity |].
    cbn [labels series_times series_values].
    split; [reflexivity |]. split; [contradiction |].
    split; [constructor |]. split; reflexivity.
  - eexists. split; [reflexivity |].
    cbn [labels series_times series_values].
    split; [intros Hnil; apply labelIds_empty in Hnil; congruence |].
    split.
    { intros _. rewrite sort_Sort_Permutation. unfold assembled.
      destruct (decide (metricOverride row = "")); [contradiction |].
      reflexivity. }
    split; [apply sort_Sort_sorted |]. split; reflexivity.
Qed.

Lemma At_overrides_first_metric_name_witness :
  let p := {| rowIdx := 0; rows := [row_override];
              labelIDMap := example_map; set_err := None |} in
  let lls := [mkLabel "job" "a"; mkLabel "__name__" "foo"] in
  assembles p row_override /\
  resolveLabels (labelIDMap p) (labelIds row_override) [] = inr lls /\
  metricOverride row_override <> "" /\
  first_metric_name lls 1 /\
  exists s : pgxSeries,
    SeriesSet.At p = Ok (Some s, p) /\
    Permutation (labels s)
      [mkLabel "job" "a"; mkLabel "__name__" "bar"; mkLabel "column" "c"] /\
    StronglySorted name_le (labels s).
Proof.
  cbv zeta.
  assert (Hasm : assembles
            {| rowIdx := 0; rows := [row_override];
               labelIDMap := example_map; set_err := None |} row_override)
    by (split; [reflexivity | split; reflexivity]).
  assert (Hres : resolveLabels example_map (labelIds row_override) []
            = inr [mkLabel "job" "a"; mkLabel "__name__" "foo"])
    by (vm_compute; reflexivity).
  assert (Hover : metricOverride row_override <> "") by discriminate.
  assert (Hfirst : first_metric_name
            [mkLabel "job" "a"; mkLabel "__name__" "foo"] 1).
  { split; [eexists; split; reflexivity |].
    intros j l Hj Hl. assert (j = 0%nat) as -> by lia.
    injection Hl as <-. discriminate. }
  refine (conj Hasm (conj Hres (conj Hover (conj Hfirst _)))).
  destruct (At_overrides_first_metric_name _ row_override _ Hasm Hres Hover)
    as (lls' & _ & Hrepl & _ & _ & s & HAt & _ & Hperm & Hsorted & _).
  exists s. split; [exact HAt |]. split; [| exact Hsorted].
  specialize (Hperm ltac:(discriminate)).
  rewrite (Hrepl 1%nat Hfirst) in Hperm. exact Hperm.
Defined.

(** C6, as the claim states it, fails on a row without label identifiers:
    [At] returns the series before it appends the additional labels, so the
    series has no label where the claim has the additional ones. *)
Lemma labels_with_additional_counterexample :
  let p := newSeriesSet [row_no_ids] ∅ in
  let q := {| rowIdx := 0; rows := [row_no_ids]; labelIDMap := ∅;
              set_err := None |} in
  let s := mkSeries [] (times row_no_ids) (values row_no_ids) in
  SeriesSet.Next p = Ok (true, q) /\
  positioned q row_no_ids /\
  SeriesSet.At q = Ok (Some s, q) /\
  resolveLabels (labelIDMap q) (labelIds row_no_ids) [] = inr [] /\
  GetAdditionalLabels row_no_ids = [mkLabel "job" "a"] /\
  ~ Permutation (labels s) ([] ++ GetAdditionalLabels row_no_ids).
Proof.
  cbv zeta. split; [vm_compute; reflexivity |].
  split; [reflexivity |]. split; [vm_compute; reflexivity |].
  split; [reflexivity |]. split; [reflexivity |].
  cbn. intros Hperm. apply Permutation_length in Hperm. discriminate.
Qed.

(** C6, amended. For every row with at least one label identifier on which
    [At()] produces a series, the label list of the series is a
    rearrangement of the resolved labels (with the metric override, if the
    row has one) followed by the additional labels, none of them dropped or
    merged, and it is sorted by label name, for any order of the
    identifiers; for a row without label identifiers the series has no
    label. *)
Theorem At_labels_are_sorted_resolved_then_additional
  (p q : pgxSeriesSet) (row : timescaleRow) (s : pgxSeries)
  (Hpos : positioned p row)
  (HAt : SeriesSet.At p = Ok (Some s, q)) :
  q = p /\
  StronglySorted name_le (labels s) /\
  (labelIds row = [] -> labels s = []) /\
  (labelIds row <> [] ->
   exists lls : Labels,
     Forall2 (resolves (labelIDMap p))
       (List.filter nonzero (labelIds row)) lls /\
     Permutation (labels s) (assembled row lls) /\
     length (labels s)
       = (length lls + length (GetAdditionalLabels row))%nat).
Proof.
  pose proof (At_Some p q row s Hpos HAt) as Hasm.
  rewrite (At_assembles p row Hasm) in HAt.
  destruct (len (labelIds row) =? 0) eqn:Hempty.
  - injection HAt as <- <-. apply labelIds_empty in Hempty.
    split; [reflexivity |]. split; [constructor |].
    split; [reflexivity | contradiction].
  - destruct (resolveLabels (labelIDMap p) (labelIds row) [])
      as [id | lls] eqn:Hres; [discriminate |].
    injection HAt as <- <-. cbn [labels].
    split; [reflexivity |]. split; [apply sort_Sort_sorted |]. split.
    + intros Hnil. apply labelIds_empty in Hnil. congruence.
    + intros _. exists lls.
      apply resolveLabels_inr in Hres as (ls & -> & Hall).
      split; [exact Hall |]. split; [apply sort_Sort_Permutation |].
      rewrite (Permutation_length (sort_Sort_Permutation _)).
      unfold assembled. rewrite length_app. f_equal.
      destruct (decide (metricOverride row = "")); [reflexivity |].
      rewrite <- (length_map Name), overrideMetricName_names, length_map.
      reflexivity.
Qed.

Lemma At_labels_are_sorted_resolved_then_additional_witness :
  let p := {| rowIdx := 0; rows := [row_override];
              labelIDMap := example_map; set_err := None |} in
  let s := mkSeries
             [mkLabel "__name__" "bar"; mkLabel "column" "c";
              mkLabel "job" "a"]
             (times row_override) (values row_override) in
  positioned p row_override /\
  SeriesSet.At p = Ok (Some s, p) /\
  StronglySorted name_le (labels s).
Proof.
  cbv zeta.
  assert (HAt : SeriesSet.At
            {| rowIdx := 0; rows := [row_override];
               labelIDMap := example_map; set_err := None |}
          = Ok (Some (mkSeries
                        [mkLabel "__name__" "bar"; mkLabel "column" "c";
                         mkLabel "job" "a"]
                        (times row_override) (values row_override)),
                {| rowIdx := 0; rows := [row_override];
                   labelIDMap := example_map; set_err := None |}))
    by (vm_compute; reflexivity).
  assert (Hpos : positioned
            {| rowIdx := 0; rows := [row_override];
               labelIDMap := example_map; set_err := None |} row_override)
    by reflexivity.
  refine (conj Hpos (conj HAt _)).
  exact (proj1 (proj2 (At_labels_are_sorted_resolved_then_additional
                         _ _ row_override _ Hpos HAt))).
Defined.

(** ** The cursor: [Close] *)

Lemma Close_loop_spec (rs : list timescaleRow) :
  forall (i : nat) (trace : list event),
  SeriesSet.Close_loop i rs trace
    = trace ++ imap (fun j => RowClose (i + j)) rs.
Proof.
  induction rs as [| row rs IH]; intros i trace; cbn [SeriesSet.Close_loop imap].
  - rewrite app_nil_r. reflexivity.
  - rewrite IH, <- app_assoc. cbn [app]. rewrite Nat.add_0_r.
    do 2 f_equal. apply imap_ext. intros j r _. cbn. f_equal. lia.
Qed.

(** C9. One call of [Close()] releases every row exactly once, in the order
    of the rows, wherever the cursor is, rows that [Next()] never reached
    included. *)
Theorem Close_releases_every_row_once (p : pgxSeriesSet)
  (trace : list event) :
  SeriesSet.Close p trace = trace ++ imap RowClose (rows p) /\
  length (SeriesSet.Close p []) = length (rows p) /\
  (forall i : nat,
     SeriesSet.Close p [] !! i = RowClose i <$> rows p !! i) /\
  (forall (i : nat) (row : timescaleRow),
     In (RowClose i row) (SeriesSet.Close p []) <-> rows p !! i = Some row) /\
  NoDup (SeriesSet.Close p []) /\
  (forall c : Z,
     SeriesSet.Close (SeriesSet.with_rowIdx c p) trace
       = SeriesSet.Close p trace).
Proof.
  assert (Hclose : forall tr,
    SeriesSet.Close p tr = tr ++ imap RowClose (rows p)).
  { intros tr. unfold SeriesSet.Close. rewrite Close_loop_spec.
    f_equal. }
  assert (Hlookup : forall i : nat,
    SeriesSet.Close p [] !! i = RowClose i <$> rows p !! i).
  { intros i. rewrite Hclose. cbn [app]. apply list_lookup_imap. }
  assert (Hin : forall (i : nat) (row : timescaleRow),
    In (RowClose i row) (SeriesSet.Close p []) <-> rows p !! i = Some row).
  { intros i row. rewrite <- list_elem_of_In, list_elem_of_lookup. split.
    - intros [j Hj]. rewrite Hlookup in Hj.
      destruct (rows p !! j) as [r |] eqn:Hr; [| discriminate].
      cbn in Hj. injection Hj as <- <-. exact Hr.
    - intros Hrow. exists i. rewrite Hlookup, Hrow. reflexivity. }
  split; [apply Hclose |]. split.
  { rewrite Hclose. cbn [app]. apply length_imap. }
  split; [exact Hlookup |]. split; [exact Hin |]. split.
  - apply NoDup_alt. intros i j e Hi Hj. rewrite Hlookup in Hi, Hj.
    destruct (rows p !! i) as [ri |]; [| discriminate].
    destruct (rows p !! j) as [rj |]; [| discriminate].
    cbn in Hi, Hj. congruence.
  - intros c. reflexivity.
Qed.

(** ** Further properties of the cursor *)

(** [Next] on a cursor that is before, on or past the rows. *)
Lemma Next_cases (p : pgxSeriesSet) :
  -1 <= rowIdx p <= len (rows p) -> len (rows p) <= GoInt.max_int ->
  SeriesSet.Next p =
    if rowIdx p + 1 <? len (rows p)
    then Ok (true,
             {| rowIdx := rowIdx p + 1; rows := rows p;
                labelIDMap := labelIDMap p;
                set_err := match set_err p with
                           | Some e => Some e
                           | None => index (rows p) (rowIdx p + 1) ≫= err
                           end |})
    else Ok (false,
             SeriesSet.with_rowIdx (Z.min (rowIdx p + 1) (len (rows p))) p).
Proof.
  intros Hidx Hmax.
  destruct (Z.ltb_spec (rowIdx p + 1) (len (rows p))) as [Hin | Hout].
  - destruct (Next_advances p) as (row & Hrow & Hnext); [lia | lia | lia |].
    rewrite Hnext, Hrow. reflexivity.
  - unfold SeriesSet.Next.
    destruct (Z.leb_spec (len (rows p)) (rowIdx p)) as [Hend | Hlast].
    + replace (Z.min (rowIdx p + 1) (len (rows p))) with (rowIdx p) by lia.
      destruct p; reflexivity.
    + rewrite incr_no_wrap
        by (unfold GoInt.min_int, GoInt.max_int in *; lia).
      cbn [rows rowIdx SeriesSet.with_rowIdx].
      destruct (Z.leb_spec (len (rows p)) (rowIdx p + 1)); [| lia].
      replace (Z.min (rowIdx p + 1) (len (rows p))) with (rowIdx p + 1) by lia.
      reflexivity.
Qed.

Lemma first_row_error_cons (row : timescaleRow) (rs : list timescaleRow) :
  first_row_error (row :: rs)
    = match err row with Some e => Some e | None => first_row_error rs end.
Proof. unfold first_row_error. cbn. destruct (err row); reflexivity. Qed.

(** [n] calls of [Next] in a row from a cursor before or on a row. *)
Lemma Next_repeated (n : nat) : forall (p : pgxSeriesSet) (trace : list event),
  -1 <= rowIdx p <= len (rows p) -> len (rows p) <= GoInt.max_int ->
  let left := Z.to_nat (len (rows p) - 1 - rowIdx p) in
  let visited := Nat.min n left in
  run (replicate n CallNext) (p, trace) =
    Ok (replicate visited (RNext true)
          ++ replicate (n - visited) (RNext false),
        ({| rowIdx := Z.min (rowIdx p + Z.of_nat n) (len (rows p));
            rows := rows p; labelIDMap := labelIDMap p;
            set_err :=
              match set_err p with
              | Some e => Some e
              | None =>
                  first_row_error
                    (take visited (drop (Z.to_nat (rowIdx p + 1)) (rows p)))
              end |}, trace)).
Proof.
  induction n as [| n IH]; intros p trace Hidx Hmax; cbv zeta.
  - cbn [replicate run Nat.min Nat.sub app take].
    change (Z.of_nat 0) with 0. rewrite Z.add_0_r, Z.min_l by lia.
    destruct p as [i rs m e]; cbn. destruct e; reflexivity.
  - cbn [replicate run do_call]. rewrite (Next_cases p Hidx Hmax).
    destruct (Z.ltb_spec (rowIdx p + 1) (len (rows p))) as [Hin | Hout].
    + cbn [mbind outcome_bind].
      match goal with
      | |- context [run _ (?q, trace)] =>
          specialize (IH q trace
                        ltac:(cbn [rowIdx rows SeriesSet.with_rowIdx]; lia)
                        Hmax)
      end.
      cbv zeta in IH. cbn [rowIdx rows labelIDMap set_err] in IH.
      rewrite IH. clear IH. cbn [mbind outcome_bind].
      assert (Hleft : Z.to_nat (len (rows p) - 1 - rowIdx p)
                = S (Z.to_nat (len (rows p) - 1 - (rowIdx p + 1)))) by lia.
      rewrite Hleft. cbn [Nat.min Nat.sub replicate app].
      replace (rowIdx p + Z.of_nat (S n)) with (rowIdx p + 1 + Z.of_nat n)
        by lia.
      do 4 f_equal.
      destruct (set_err p) as [e |]; [reflexivity |].
      assert (Hrow : is_Some (index (rows p) (rowIdx p + 1)))
        by (apply index_is_Some; lia).
      destruct Hrow as [row Hrow]. rewrite Hrow.
      apply index_Some in Hrow as [_ Hrow].
      rewrite (drop_S _ _ _ Hrow). cbn [take mbind option_bind].
      rewrite first_row_error_cons.
      replace (Z.to_nat (rowIdx p + 1 + 1)) with (S (Z.to_nat (rowIdx p + 1)))
        by lia.
      destruct (err row); reflexivity.
    + cbn [mbind outcome_bind].
      match goal with
      | |- context [run _ (?q, trace)] =>
          specialize (IH q trace
                        ltac:(cbn [rowIdx rows SeriesSet.with_rowIdx]; lia)
                        Hmax)
      end.
      cbv zeta in IH.
      cbn [rowIdx rows labelIDMap set_err SeriesSet.with_rowIdx] in IH.
      rewrite IH. clear IH. cbn [mbind outcome_bind].
      replace (Z.to_nat (len (rows p) - 1 - rowIdx p)) with 0%nat by lia.
      replace (Z.to_nat (len (rows p) - 1
                 - Z.min (rowIdx p + 1) (len (rows p)))) with 0%nat by lia.
      rewrite !Nat.min_0_r. cbn [replicate app Nat.sub take].
      rewrite Nat.sub_0_r.
      replace (Z.min (Z.min (rowIdx p + 1) (len (rows p)) + Z.of_nat n)
                 (len (rows p)))
        with (Z.min (rowIdx p + Z.of_nat (S n)) (len (rows p))) by lia.
      reflexivity.
Qed.

(** X1. From the cursor that [buildSeriesSet] returns, the calls of [Next()]
    return true once for each row and false from then on; after [n] calls
    the cursor is on row [n - 1], or stays just past the last row. *)
Theorem Next_visits_every_row_in_order
  (rs : list timescaleRow) (querier : labelQuerier) (p : pgxSeriesSet)
  (n : nat)
  (Hbuild : buildSeriesSet rs querier = pgxSet p)
  (Hmax : len rs <= GoInt.max_int) :
  exists q : pgxSeriesSet,
    run (replicate n CallNext) (p, []) =
      Ok (replicate (Nat.min n (length rs)) (RNext true)
            ++ replicate (n - length rs) (RNext false), (q, [])) /\
    rowIdx q = Z.min (Z.of_nat n - 1) (len rs) /\
    rows q = rs /\ labelIDMap q = labelIDMap p /\
    (forall row, (1 <= n)%nat -> rs !! (n - 1)%nat = Some row ->
                 positioned q row).
Proof.
  apply buildSeriesSet_pgx in Hbuild as [m ->].
  pose proof (len_nonneg rs) as Hnn.
  pose proof (Next_repeated n (newSeriesSet rs m) []) as Hrun.
  cbv zeta in Hrun. cbn [rowIdx rows labelIDMap set_err newSeriesSet] in Hrun.
  specialize (Hrun ltac:(lia) Hmax).
  replace (Z.to_nat (len rs - 1 - -1)) with (length rs) in Hrun
    by (unfold len; lia).
  replace (n - Nat.min n (length rs))%nat with (n - length rs)%nat in Hrun
    by lia.
  eexists. split; [exact Hrun |]. cbn [rowIdx rows labelIDMap].
  split; [lia |]. split; [reflexivity |]. split; [reflexivity |].
  intros row Hn Hrow. unfold positioned. cbn [rowIdx rows].
  pose proof (lookup_lt_Some _ _ _ Hrow) as Hlt.
  apply index_Some. split; [unfold len; lia |].
  replace (Z.to_nat (Z.min (-1 + Z.of_nat n) (len rs))) with (n - 1)%nat
    by (unfold len; lia).
  exact Hrow.
Qed.

Lemma Next_visits_every_row_in_order_witness :
  let rs := [row_fetch_failed; row_bad_lengths] in
  let p := newSeriesSet rs ∅ in
  buildSeriesSet rs (querier_filling ∅) = pgxSet p /\
  len rs <= GoInt.max_int /\
  exists q : pgxSeriesSet,
    run (replicate 3 CallNext) (p, []) =
      Ok ([RNext true; RNext true; RNext false], (q, [])) /\
    rowIdx q = 2.
Proof.
  cbv zeta.
  assert (Hbuild : buildSeriesSet [row_fetch_failed; row_bad_lengths]
                     (querier_filling ∅)
                   = pgxSet (newSeriesSet
                               [row_fetch_failed; row_bad_lengths] ∅))
    by reflexivity.
  assert (Hmax : len [row_fetch_failed; row_bad_lengths] <= GoInt.max_int)
    by (vm_compute; discriminate).
  refine (conj Hbuild (conj Hmax _)).
  destruct (Next_visits_every_row_in_order _ _ _ 3 Hbuild Hmax)
    as (q & Hrun & Hidx & _).
  exists q. exact (conj Hrun Hidx).
Defined.

(** X2. When only [Next()] is called, [n] times from the cursor that
    [buildSeriesSet] returns, [Err()] reports the first error that one of
    the first [n] rows carries, and nothing if none of them carries one. *)
Theorem Next_latches_first_row_error
  (rs : list timescaleRow) (querier : labelQuerier) (p : pgxSeriesSet)
  (n : nat)
  (Hbuild : buildSeriesSet rs querier = pgxSet p)
  (Hmax : len rs <= GoInt.max_int) :
  exists (replies : list reply) (q : pgxSeriesSet),
    run (replicate n CallNext) (p, []) = Ok (replies, (q, [])) /\
    SeriesSet.Err q
      = ErrRetrievingSeriesSet <$> first_row_error (take n rs).
Proof.
  apply buildSeriesSet_pgx in Hbuild as [m ->].
  pose proof (len_nonneg rs) as Hnn.
  pose proof (Next_repeated n (newSeriesSet rs m) []) as Hrun.
  cbv zeta in Hrun. cbn [rowIdx rows labelIDMap set_err newSeriesSet] in Hrun.
  specialize (Hrun ltac:(lia) Hmax).
  do 2 eexists. split; [exact Hrun |].
  unfold SeriesSet.Err. cbn [set_err].
  replace (Z.to_nat (len rs - 1 - -1)) with (length rs) by (unfold len; lia).
  change (Z.to_nat (-1 + 1)) with 0%nat. rewrite drop_0.
  assert (Htake : take (Nat.min n (length rs)) rs = take n rs).
  { destruct (Nat.le_ge_cases n (length rs)) as [Hle | Hge].
    - rewrite Nat.min_l by exact Hle. reflexivity.
    - rewrite Nat.min_r by exact Hge.
      rewrite !take_ge by lia. reflexivity. }
  rewrite Htake. destruct (first_row_error (take n rs)); reflexivity.
Qed.

Lemma Next_latches_first_row_error_witness :
  let rs := [row_bad_lengths; row_fetch_failed] in
  let p := newSeriesSet rs ∅ in
  buildSeriesSet rs (querier_filling ∅) = pgxSet p /\
  len rs <= GoInt.max_int /\
  exists (replies : list reply) (q : pgxSeriesSet),
    run (replicate 2 CallNext) (p, []) = Ok (replies, (q, [])) /\
    SeriesSet.Err q
      = Some (ErrRetrievingSeriesSet (ErrUpstream "fetch failed")).
Proof.
  cbv zeta.
  assert (Hbuild : buildSeriesSet [row_bad_lengths; row_fetch_failed]
                     (querier_filling ∅)
                   = pgxSet (newSeriesSet
                               [row_bad_lengths; row_fetch_failed] ∅))
    by reflexivity.
  assert (Hmax : len [row_bad_lengths; row_fetch_failed] <= GoInt.max_int)
    by (vm_compute; discriminate).
  refine (conj Hbuild (conj Hmax _)).
  destruct (Next_latches_first_row_error _ _ _ 2 Hbuild Hmax)
    as (replies & q & Hrun & HErr).
  exists replies, q. exact (conj Hrun HErr).
Defined.

(** [At] leaves the cursor where it is, and the rows and the mapping as
    they are. *)
Lemma At_frame (p q : pgxSeriesSet) (s : option pgxSeries) :
  SeriesSet.At p = Ok (s, q) ->
  rowIdx q = rowIdx p /\ rows q = rows p /\ labelIDMap q = labelIDMap p.
Proof.
  unfold SeriesSet.At.
  destruct (len (rows p) <=? rowIdx p). { intros [= _ <-]. auto. }
  destruct (at_index (rows p) (rowIdx p)) as [row | |]; try discriminate.
  cbn [mbind outcome_bind].
  destruct (err row). { intros [= _ <-]. auto. }
  destruct (negb _). { intros [= _ <-]. cbn. auto. }
  destruct (len (labelIds row) =? 0). { intros [= _ <-]. auto. }
  destruct (resolveLabels _ _ _); intros [= _ <-]; cbn; auto.
Qed.

(** X3. [At()] is idempotent: a second call at the same position returns
    what the first returned and leaves the cursor as the first left it. *)
Theorem At_is_idempotent (p q : pgxSeriesSet) (s : option pgxSeries)
  (HAt : SeriesSet.At p = Ok (s, q)) :
  SeriesSet.At q = Ok (s, q).
Proof.
  revert HAt. unfold SeriesSet.At.
  destruct (len (rows p) <=? rowIdx p) eqn:Hend.
  { intros [= <- <-]. rewrite Hend. reflexivity. }
  destruct (at_index (rows p) (rowIdx p)) as [row | |] eqn:Hrow;
    try discriminate.
  cbn [mbind outcome_bind].
  destruct (err row) eqn:Herr.
  { intros [= <- <-]. rewrite Hend, Hrow. cbn [mbind outcome_bind].
    rewrite Herr. reflexivity. }
  destruct (negb _) eqn:Hlen.
  { intros [= <- <-]. cbn [rows rowIdx SeriesSet.with_err].
    rewrite Hend, Hrow. cbn [mbind outcome_bind]. rewrite Herr, Hlen.
    reflexivity. }
  destruct (len (labelIds row) =? 0) eqn:Hids.
  { intros [= <- <-]. rewrite Hend, Hrow. cbn [mbind outcome_bind].
    rewrite Herr, Hlen, Hids. reflexivity. }
  destruct (resolveLabels _ _ _) eqn:Hres; intros [= <- <-].
  - cbn [rows rowIdx labelIDMap SeriesSet.with_err].
    rewrite Hend, Hrow. cbn [mbind outcome_bind].
    rewrite Herr, Hlen, Hids, Hres. reflexivity.
  - rewrite Hend, Hrow. cbn [mbind outcome_bind].
    rewrite Herr, Hlen, Hids, Hres. reflexivity.
Qed.

Lemma At_is_idempotent_witness :
  let p := {| rowIdx := 0; rows := [row_missing_label];
              labelIDMap := example_map; set_err := None |} in
  let q := SeriesSet.with_err (Some (ErrMissingLabel 7)) p in
  SeriesSet.At p = Ok (None, q) /\ SeriesSet.At q = Ok (None, q).
Proof.
  cbv zeta.
  assert (HAt : SeriesSet.At
            {| rowIdx := 0; rows := [row_missing_label];
               labelIDMap := example_map; set_err := None |}
          = Ok (None,
                SeriesSet.with_err (Some (ErrMissingLabel 7))
                  {| rowIdx := 0; rows := [row_missing_label];
                     labelIDMap := example_map; set_err := None |}))
    by (vm_compute; reflexivity).
  exact (conj HAt (At_is_idempotent _ _ _ HAt)).
Defined.

Lemma Next_frame (p q : pgxSeriesSet) (b : bool) :
  SeriesSet.Next p = Ok (b, q) ->
  rows q = rows p /\ labelIDMap q = labelIDMap p.
Proof.
  intros Hnext. destruct b.
  - apply Next_true in Hnext as (_ & _ & _ & Hrows & Hmap & _). auto.
  - apply Next_false in Hnext as (_ & Hrows & Hmap & _). auto.
Qed.

Lemma do_call_frame (c : call) (p q : pgxSeriesSet)
  (trace trace' : list event) (r : reply) :
  do_call c (p, trace) = Ok (r, (q, trace')) ->
  rows q = rows p /\ labelIDMap q = labelIDMap p.
Proof.
  destruct c; cbn [do_call].
  - destruct (SeriesSet.Next p) as [[b p'] | |] eqn:Hnext; try discriminate.
    cbn. intros [= _ <- _]. exact (Next_frame _ _ _ Hnext).
  - destruct (SeriesSet.At p) as [[s p'] | |] eqn:HAt; try discriminate.
    cbn. intros [= _ <- _]. destruct (At_frame _ _ _ HAt) as (_ & ? & ?). auto.
  - intros [= _ <- _]. auto.
  - intros [= _ <- _]. auto.
Qed.

Lemma run_frame (cs : list call) : forall (p q : pgxSeriesSet)
  (trace trace' : list event) (replies : list reply),
  run cs (p, trace) = Ok (replies, (q, trace')) ->
  rows q = rows p /\ labelIDMap q = labelIDMap p.
Proof.
  induction cs as [| c cs IH]; intros p q trace trace' replies Hrun.
  - injection Hrun as _ <- _. auto.
  - cbn [run] in Hrun.
    destruct (do_call c (p, trace)) as [[r [p1 trace1]] | |] eqn:Hcall;
      try discriminate.
    cbn [mbind outcome_bind] in Hrun.
    destruct (run cs (p1, trace1)) as [[rs [p2 trace2]] | |] eqn:Hrest;
      try discriminate.
    cbn [mbind outcome_bind] in Hrun. injection Hrun as _ <- _.
    destruct (do_call_frame _ _ _ _ _ _ Hcall) as [Hr1 Hm1].
    destruct (IH _ _ _ _ _ Hrest) as [Hr2 Hm2].
    split; congruence.
Qed.

(** X4. Whatever calls are made on a cursor, its rows and its mapping stay
    as they are, and the calls of [row.Close()] made are those of every row,
    in the order of the rows, once for each call of [Close()]: a second
    [Close()] releases every row a second time. *)
Theorem calls_keep_rows_and_Close_releases_all
  (cs : list call) (p q : pgxSeriesSet) (trace trace' : list event)
  (replies : list reply)
  (Hrun : run cs (p, trace) = Ok (replies, (q, trace'))) :
  rows q = rows p /\ labelIDMap q = labelIDMap p /\
  length replies = length cs /\
  trace' = trace ++ concat (replicate (closes cs) (imap RowClose (rows p))).
Proof.
  revert p trace replies Hrun.
  induction cs as [| c cs IH]; intros p trace replies Hrun.
  - injection Hrun as <- <- <-. cbn. rewrite app_nil_r. auto.
  - cbn [run] in Hrun.
    destruct (do_call c (p, trace)) as [[r [p1 trace1]] | |] eqn:Hcall;
      try discriminate.
    cbn [mbind outcome_bind] in Hrun.
    destruct (run cs (p1, trace1)) as [[rs [p2 trace2]] | |] eqn:Hrest;
      try discriminate.
    cbn [mbind outcome_bind] in Hrun. injection Hrun as <- <- <-.
    destruct (IH _ _ _ Hrest) as (Hrows & Hmap & Hlen & Htrace).
    assert (Hstep : rows p1 = rows p /\ labelIDMap p1 = labelIDMap p /\
                    trace1 = trace ++
                      (if match c with CallClose => true | _ => false end
                       then imap RowClose (rows p) else [])).
    { destruct c; cbn [do_call] in Hcall.
      - destruct (SeriesSet.Next p) as [[b p'] | |] eqn:Hnext;
          try discriminate.
        cbn in Hcall. injection Hcall as _ <- <-.
        destruct (Next_frame _ _ _ Hnext). rewrite app_nil_r. auto.
      - destruct (SeriesSet.At p) as [[s p'] | |] eqn:HAt; try discriminate.
        cbn in Hcall. injection Hcall as _ <- <-.
        destruct (At_frame _ _ _ HAt) as (_ & ? & ?).
        rewrite app_nil_r. auto.
      - injection Hcall as _ <- <-. rewrite app_nil_r. auto.
      - injection Hcall as _ <- <-.
        unfold SeriesSet.Close. rewrite Close_loop_spec. auto. }
    destruct Hstep as (Hrows1 & Hmap1 & Htrace1).
    split; [congruence |]. split; [congruence |].
    split; [cbn; congruence |].
    rewrite Htrace, Htrace1, Hrows1, <- app_assoc. f_equal.
    unfold closes. cbn [List.filter].
    destruct c; cbn [length replicate concat app]; reflexivity.
Qed.

Lemma calls_keep_rows_and_Close_releases_all_witness :
  let p := newSeriesSet [row_no_ids] ∅ in
  exists (replies : list reply) (q : pgxSeriesSet),
    run [CallClose; CallNext; CallClose] (p, []) =
      Ok (replies,
          (q, [RowClose 0 row_no_ids; RowClose 0 row_no_ids])) /\
    rows q = rows p.
Proof.
  cbv zeta.
  assert (Hrun : exists replies q,
            run [CallClose; CallNext; CallClose]
              (newSeriesSet [row_no_ids] ∅, [])
            = Ok (replies,
                  (q, [RowClose 0 row_no_ids; RowClose 0 row_no_ids])))
    by (do 2 eexists; vm_compute; reflexivity).
  destruct Hrun as (replies & q & Hrun).
  exists replies, q. split; [exact Hrun |].
  exact (proj1 (calls_keep_rows_and_Close_releases_all _ _ _ _ _ _ Hrun)).
Defined.

(** X5. No failure is dropped: when [At()] returns nothing at a position
    that [Next()] reached, [Err()] reports an error. *)
Theorem At_nothing_is_reported (p q q' : pgxSeriesSet)
  (Hnext : SeriesSet.Next p = Ok (true, q))
  (HAt : SeriesSet.At q = Ok (None, q')) :
  is_Some (SeriesSet.Err q').
Proof.
  apply Next_true in Hnext as (_ & _ & Hlt & _ & _ & Herr).
  assert (Hset : is_Some (set_err q')).
  { revert HAt. unfold SeriesSet.At.
    destruct (Z.leb_spec (len (rows q)) (rowIdx q)); [lia |].
    unfold at_index.
    destruct (index (rows q) (rowIdx q)) as [row |] eqn:Hrow;
      [| discriminate].
    cbn [mbind outcome_bind].
    destruct (err row) as [e |] eqn:Hrowerr.
    { intros [= <-]. destruct (set_err p) as [e0 |].
      - rewrite Herr. eauto.
      - destruct Herr as (row' & Hpos & ->). unfold positioned in Hpos.
        rewrite Hrow in Hpos. injection Hpos as <-. rewrite Hrowerr. eauto. }
    destruct (negb _). { intros [= <-]. cbn. eauto. }
    destruct (len (labelIds row) =? 0); [discriminate |].
    destruct (resolveLabels _ _ _); [| discriminate].
    intros [= <-]. cbn. eauto. }
  destruct Hset as [e He]. unfold SeriesSet.Err. rewrite He. eauto.
Qed.

Lemma At_nothing_is_reported_witness :
  let p := newSeriesSet [row_fetch_failed] ∅ in
  let q := {| rowIdx := 0; rows := [row_fetch_failed]; labelIDMap := ∅;
              set_err := Some (ErrUpstream "fetch failed") |} in
  SeriesSet.Next p = Ok (true, q) /\
  SeriesSet.At q = Ok (None, q) /\
  is_Some (SeriesSet.Err q).
Proof.
  cbv zeta.
  assert (Hnext : SeriesSet.Next (newSeriesSet [row_fetch_failed] ∅)
            = Ok (true, {| rowIdx := 0; rows := [row_fetch_failed];
                           labelIDMap := ∅;
                           set_err := Some (ErrUpstream "fetch failed") |}))
    by (vm_compute; reflexivity).
  assert (HAt : SeriesSet.At
            {| rowIdx := 0; rows := [row_fetch_failed]; labelIDMap := ∅;
               set_err := Some (ErrUpstream "fetch failed") |}
          = Ok (None, {| rowIdx := 0; rows := [row_fetch_failed];
                         labelIDMap := ∅;
                         set_err := Some (ErrUpstream "fetch failed") |}))
    by (vm_compute; reflexivity).
  exact (conj Hnext (conj HAt (At_nothing_is_reported _ _ _ Hnext HAt))).
Defined.

Lemma healthy_resolves (m : gmap Z Label) (ids : list Z) :
  Forall (fun id => id = 0 \/ exists l, resolves m id l) ids ->
  forall lls : Labels, exists out, resolveLabels m ids lls = inr out.
Proof.
  induction 1 as [| id ids Hid _ IH]; intros lls; cbn [resolveLabels];
    [eauto |].
  destruct (Z.eqb_spec id 0) as [_ | Hnz]; [apply IH |].
  destruct Hid as [-> | (l & Hl & Hne)]; [contradiction |].
  rewrite Hl. destruct (decide (l = zeroLabel)); [contradiction | apply IH].
Qed.

(** [At] on a healthy row returns a series of the row's samples and changes
    nothing. *)
Lemma At_healthy (p : pgxSeriesSet) (row : timescaleRow) :
  positioned p row -> healthy (labelIDMap p) row ->
  exists s, SeriesSet.At p = Ok (Some s, p) /\
            series_times s = times row /\ series_values s = values row.
Proof.
  intros Hpos (Herr & Hlen & Hids).
  rewrite (At_assembles p row (conj Hpos (conj Herr Hlen))).
  destruct (len (labelIds row) =? 0); [eexists; split; [reflexivity | auto] |].
  destruct (healthy_resolves _ _ Hids []) as [lls ->].
  eexists; split; [reflexivity | auto].
Qed.

(** X6. On rows that are all healthy (no error of their own, as many
    timestamps as values, every non-zero identifier resolved) no call sets
    an error: [Err()] returns nothing at every point, and [At()] returns a
    series of the row's samples wherever the cursor is on a row. *)
Theorem healthy_rows_never_fail
  (cs : list call) (p q : pgxSeriesSet) (trace trace' : list event)
  (replies : list reply)
  (Hrows : Forall (healthy (labelIDMap p)) (rows p))
  (Hclean : set_err p = None)
  (Hrun : run cs (p, trace) = Ok (replies, (q, trace'))) :
  SeriesSet.Err q = None /\
  (forall e, In (RErr e) replies -> e = None) /\
  (forall row, positioned q row ->
     exists s, SeriesSet.At q = Ok (Some s, q) /\
               series_times s = times row /\ series_values s = values row).
Proof.
  assert (Hinv : set_err q = None /\
                 (forall e, In (RErr e) replies -> e = None)).
  { clear - Hrows Hclean Hrun. revert p trace replies Hrows Hclean Hrun.
    induction cs as [| c cs IH]; intros p trace replies Hrows Hclean Hrun.
    - injection Hrun as <- <- _. split; [exact Hclean | intros e []].
    - cbn [run] in Hrun.
      destruct (do_call c (p, trace)) as [[r [p1 trace1]] | |] eqn:Hcall;
        try discriminate.
      cbn [mbind outcome_bind] in Hrun.
      destruct (run cs (p1, trace1)) as [[rs [p2 trace2]] | |] eqn:Hrest;
        try discriminate.
      cbn [mbind outcome_bind] in Hrun. injection Hrun as <- <- <-.
      assert (Hstep : rows p1 = rows p /\ labelIDMap p1 = labelIDMap p /\
                      set_err p1 = None /\ (forall e, r = RErr e -> e = None)).
      { destruct c; cbn [do_call] in Hcall.
        - destruct (SeriesSet.Next p) as [[b p'] | |] eqn:Hnext;
            try discriminate.
          cbn in Hcall. injection Hcall as <- <- _.
          destruct (Next_frame _ _ _ Hnext) as [Hr Hm].
          split; [exact Hr |]. split; [exact Hm |].
          split; [| intros e; discriminate].
          destruct b.
          + apply Next_true in Hnext as (_ & _ & _ & _ & _ & Herr).
            rewrite Hclean in Herr. destruct Herr as (row & Hpos & ->).
            unfold positioned in Hpos. apply index_Some in Hpos as [_ Hpos].
            rewrite Hr in Hpos.
            apply (Forall_lookup_1 _ _ _ _ Hrows Hpos).
          + apply Next_false in Hnext as (_ & _ & _ & Herr). congruence.
        - destruct (SeriesSet.At p) as [[s p'] | |] eqn:HAt;
            try discriminate.
          cbn in Hcall. injection Hcall as <- <- _.
          destruct (At_frame _ _ _ HAt) as (_ & Hr & Hm).
          split; [exact Hr |]. split; [exact Hm |].
          split; [| intros e; discriminate].
          revert HAt. unfold SeriesSet.At.
          destruct (len (rows p) <=? rowIdx p).
          { intros [= _ <-]. exact Hclean. }
          unfold at_index.
          destruct (index (rows p) (rowIdx p)) as [row |] eqn:Hrow;
            [| discriminate].
          intros HAt.
          assert (Hh : healthy (labelIDMap p) row).
          { apply index_Some in Hrow as [_ Hrow].
            apply (Forall_lookup_1 _ _ _ _ Hrows Hrow). }
          destruct (At_healthy p row Hrow Hh) as (s0 & HAt0 & _).
          unfold SeriesSet.At in HAt0.
          destruct (len (rows p) <=? rowIdx p) eqn:Hend.
          { apply positioned_in_range in Hrow.
            apply Z.leb_le in Hend. lia. }
          unfold at_index in HAt0. rewrite Hrow in HAt0.
          rewrite HAt0 in HAt. injection HAt as _ <-. exact Hclean.
        - injection Hcall as <- <- _.
          split; [reflexivity |]. split; [reflexivity |].
          split; [exact Hclean |]. intros e [= <-].
          unfold SeriesSet.Err. rewrite Hclean. reflexivity.
        - injection Hcall as <- <- _.
          split; [reflexivity |]. split; [reflexivity |].
          split; [exact Hclean | intros e; discriminate]. }
      destruct Hstep as (Hr1 & Hm1 & Hclean1 & Hreply).
      rewrite <- Hr1, <- Hm1 in Hrows.
      destruct (IH _ _ _ Hrows Hclean1 Hrest) as [Hq Hreplies].
      split; [exact Hq |].
      intros e [Hin | Hin]; [apply Hreply; exact Hin | apply Hreplies, Hin]. }
  destruct Hinv as [Hq Hreplies].
  destruct (run_frame cs p q trace trace' replies Hrun) as (Hr & Hm).
  split; [unfold SeriesSet.Err; rewrite Hq; reflexivity |].
  split; [exact Hreplies |].
  intros row Hpos. apply At_healthy; [exact Hpos |].
  apply index_Some in Hpos as [_ Hpos]. rewrite Hr in Hpos. rewrite Hm.
  apply (Forall_lookup_1 _ _ _ _ Hrows Hpos).
Qed.

Lemma healthy_rows_never_fail_witness :
  let p := newSeriesSet [row_override] example_map in
  Forall (healthy (labelIDMap p)) (rows p) /\
  set_err p = None /\
  exists (replies : list reply) (q : pgxSeriesSet),
    run [CallNext; CallAt; CallErr] (p, []) = Ok (replies, (q, [])) /\
    SeriesSet.Err q = None.
Proof.
  cbv zeta.
  assert (Hrows : Forall (healthy (labelIDMap (newSeriesSet [row_override]
                                                 example_map)))
                    (rows (newSeriesSet [row_override] example_map))).
  { constructor; [| constructor].
    split; [reflexivity |]. split; [reflexivity |].
    constructor.
    { right. exists (mkLabel "job" "a"). split; [reflexivity | discriminate]. }
    constructor; [left; reflexivity |].
    constructor; [| constructor].
    right. exists (mkLabel "__name__" "foo").
    split; [reflexivity | discriminate]. }
  assert (Hrun : exists replies q,
            run [CallNext; CallAt; CallErr]
              (newSeriesSet [row_override] example_map, [])
            = Ok (replies, (q, [])))
    by (do 2 eexists; vm_compute; reflexivity).
  destruct Hrun as (replies & q & Hrun).
  refine (conj Hrows (conj eq_refl _)).
  exists replies, q. split; [exact Hrun |].
  exact (proj1 (healthy_rows_never_fail _ _ _ _ _ _ Hrows eq_refl Hrun)).
Defined.

Lemma resolveLabels_first_missing (m : gmap Z Label) (ids : list Z) (id : Z) :
  forall lls : Labels,
  resolveLabels m ids lls = inl id ->
  exists before after,
    ids = before ++ id :: after /\
    Forall (fun i => i = 0 \/ exists l, resolves m i l) before /\
    id <> 0 /\ missing m id.
Proof.
  induction ids as [| i ids IH]; intros lls; cbn [resolveLabels];
    [discriminate |].
  destruct (Z.eqb_spec i 0) as [Hz | Hnz].
  - intros H. destruct (IH _ H) as (before & after & -> & Hall & Hne & Hmiss).
    exists (i :: before), after.
    split; [reflexivity |]. split; [constructor; [left; exact Hz | exact Hall] |].
    split; assumption.
  - destruct (m !! i) as [label |] eqn:Hm.
    + destruct (decide (label = zeroLabel)) as [-> | Hl].
      * intros [= <-]. exists [], ids.
        split; [reflexivity |]. split; [constructor |].
        split; [exact Hnz | right; exact Hm].
      * intros H.
        destruct (IH _ H) as (before & after & -> & Hall & Hne & Hmiss).
        exists (i :: before), after.
        split; [reflexivity |]. split; [| split; assumption].
        constructor; [| exact Hall].
        right. exists label. split; assumption.
    + intros [= <-]. exists [], ids.
      split; [reflexivity |]. split; [constructor |].
      split; [exact Hnz | left; exact Hm].
Qed.

(** X7. On a row that reaches the assembly, [At()] returns nothing only for
    a missing label, and the error names the first identifier of the row, in
    the order of [labelIds], that is non-zero and has no label: every
    identifier before it is zero or resolves. *)
Theorem At_reports_first_missing_label
  (p q : pgxSeriesSet) (row : timescaleRow)
  (Hasm : assembles p row)
  (HAt : SeriesSet.At p = Ok (None, q)) :
  exists (id : Z) (before after : list Z),
    labelIds row = before ++ id :: after /\
    Forall (fun i => i = 0 \/ exists l, resolves (labelIDMap p) i l) before /\
    id <> 0 /\ missing (labelIDMap p) id /\
    q = SeriesSet.with_err (Some (ErrMissingLabel id)) p /\
    SeriesSet.Err q = Some (ErrRetrievingSeriesSet (ErrMissingLabel id)).
Proof.
  rewrite (At_assembles p row Hasm) in HAt.
  destruct (len (labelIds row) =? 0); [discriminate |].
  destruct (resolveLabels (labelIDMap p) (labelIds row) []) as [id | lls]
    eqn:Hres; [| discriminate].
  injection HAt as <-.
  destruct (resolveLabels_first_missing _ _ _ _ Hres)
    as (before & after & Hids & Hall & Hne & Hmiss).
  exists id, before, after. repeat split; assumption.
Qed.

Lemma At_reports_first_missing_label_witness :
  let p := {| rowIdx := 0; rows := [row_missing_label];
              labelIDMap := example_map; set_err := None |} in
  assembles p row_missing_label /\
  exists q (id : Z) (before after : list Z),
    SeriesSet.At p = Ok (None, q) /\
    labelIds row_missing_label = before ++ id :: after /\
    SeriesSet.Err q = Some (ErrRetrievingSeriesSet (ErrMissingLabel id)).
Proof.
  cbv zeta.
  assert (Hasm : assembles
            {| rowIdx := 0; rows := [row_missing_label];
               labelIDMap := example_map; set_err := None |}
            row_missing_label)
    by (split; [reflexivity | split; reflexivity]).
  assert (HAt : SeriesSet.At
            {| rowIdx := 0; rows := [row_missing_label];
               labelIDMap := example_map; set_err := None |}
          = Ok (None,
                SeriesSet.with_err (Some (ErrMissingLabel 7))
                  {| rowIdx := 0; rows := [row_missing_label];
                     labelIDMap := example_map; set_err := None |}))
    by (vm_compute; reflexivity).
  split; [exact Hasm |].
  destruct (At_reports_first_missing_label _ _ _ Hasm HAt)
    as (id & before & after & Hids & _ & _ & _ & _ & HErr).
  eexists. exists id, before, after.
  exact (conj HAt (conj Hids HErr)).
Defined.

(** ** The order of the labels does not depend on the order of the
    identifiers *)

Lemma name_le_antisym (a b : Label) :
  name_le a b -> name_le b a -> Name a = Name b.
Proof. unfold name_le. apply String.leb_antisym. Qed.

Lemma sorted_Permutation_unique (l1 : Labels) : forall l2 : Labels,
  StronglySorted name_le l1 -> StronglySorted name_le l2 ->
  Permutation l1 l2 -> NoDup (map Name l1) -> l1 = l2.
Proof.
  induction l1 as [| a l1 IH]; intros l2 Hs1 Hs2 Hperm Hnd.
  - apply Permutation_nil in Hperm. congruence.
  - destruct l2 as [| b l2].
    { symmetry in Hperm. apply Permutation_nil in Hperm. discriminate. }
    inversion Hs1 as [| ? ? Hs1' Hall1]; subst.
    inversion Hs2 as [| ? ? Hs2' Hall2]; subst.
    cbn [map] in Hnd. apply NoDup_cons in Hnd as [Hfresh Hnd'].
    assert (Hab : a = b).
    { destruct (decide (a = b)) as [Heq | Hne]; [exact Heq | exfalso].
      assert (Hina : In a (b :: l2))
        by (apply (Permutation_in a Hperm); left; reflexivity).
      assert (Hinb : In b (a :: l1))
        by (apply (Permutation_in b (Permutation_sym Hperm)); left;
            reflexivity).
      destruct Hina as [Hba | Hina]; [congruence |].
      destruct Hinb as [Hab | Hinb]; [congruence |].
      rewrite Forall_forall in Hall1, Hall2.
      assert (Hname : Name a = Name b).
      { apply name_le_antisym.
        - apply Hall1. apply list_elem_of_In. exact Hinb.
        - apply Hall2. apply list_elem_of_In. exact Hina. }
      apply Hfresh. rewrite Hname. apply list_elem_of_In, in_map, Hinb. }
    subst b. f_equal. apply IH; try assumption.
    apply (Permutation_cons_inv Hperm).
Qed.

Lemma filter_Permutation_bool {A : Type} (f : A -> bool) (l1 l2 : list A) :
  Permutation l1 l2 -> Permutation (List.filter f l1) (List.filter f l2).
Proof.
  induction 1 as [| x l1 l2 _ IH | x y l | l1 l2 l3 _ IH1 _ IH2];
    cbn [List.filter].
  - reflexivity.
  - destruct (f x); [apply perm_skip |]; exact IH.
  - destruct (f x), (f y); try reflexivity. apply perm_swap.
  - etransitivity; eassumption.
Qed.

Lemma resolves_functional (m : gmap Z Label) (ids : list Z) (lls : Labels) :
  Forall2 (resolves m) ids lls ->
  lls = map (fun id => default zeroLabel (m !! id)) ids.
Proof.
  induction 1 as [| id l ids lls [Hl _] _ IH]; [reflexivity |].
  cbn [map]. rewrite Hl. cbn. f_equal. exact IH.
Qed.

Lemma overrideMetricName_as_map (lls : Labels) (override : string) :
  NoDup (map Name lls) ->
  overrideMetricName lls override = map (withMetricName override) lls.
Proof.
  induction lls as [| l lls IH]; intros Hnd; [reflexivity |].
  cbn [map] in Hnd. apply NoDup_cons in Hnd as [Hfresh Hnd].
  cbn [overrideMetricName map]. unfold withMetricName at 1.
  destruct (decide (Name l = MetricNameLabelName)) as [Heq | Hne].
  - f_equal. symmetry. rewrite <- (map_id lls) at 2.
    apply map_ext_in. intros l' Hl'. unfold withMetricName.
    destruct (decide (Name l' = MetricNameLabelName)) as [Heq' | _];
      [| reflexivity].
    exfalso. apply Hfresh. rewrite Heq, <- Heq'.
    apply list_elem_of_In, in_map, Hl'.
  - f_equal. apply IH, Hnd.
Qed.

(** X8. The label list of the series does not depend on the order of the
    label identifiers of the row: two rows with the same identifiers in a
    different order, the same override and the same additional labels give
    the same label list, when no two labels of it have the same name. *)
Theorem At_labels_do_not_depend_on_identifier_order
  (p1 p2 q1 q2 : pgxSeriesSet) (row1 row2 : timescaleRow)
  (s1 s2 : pgxSeries)
  (Hpos1 : positioned p1 row1) (Hpos2 : positioned p2 row2)
  (Hmap : labelIDMap p1 = labelIDMap p2)
  (Hids : Permutation (labelIds row1) (labelIds row2))
  (Hover : metricOverride row1 = metricOverride row2)
  (Hadd : GetAdditionalLabels row1 = GetAdditionalLabels row2)
  (HAt1 : SeriesSet.At p1 = Ok (Some s1, q1))
  (HAt2 : SeriesSet.At p2 = Ok (Some s2, q2))
  (Hnames : NoDup (map Name (labels s1))) :
  labels s1 = labels s2.
Proof.
  pose proof (At_Some _ _ _ _ Hpos1 HAt1) as Hasm1.
  pose proof (At_Some _ _ _ _ Hpos2 HAt2) as Hasm2.
  rewrite (At_assembles _ _ Hasm1) in HAt1.
  rewrite (At_assembles _ _ Hasm2) in HAt2.
  destruct (len (labelIds row1) =? 0) eqn:He1.
  { apply labelIds_empty in He1. rewrite He1 in Hids.
    apply Permutation_nil in Hids.
    apply labelIds_empty in Hids. rewrite Hids in HAt2.
    injection HAt1 as <- _. injection HAt2 as <- _. reflexivity. }
  destruct (len (labelIds row2) =? 0) eqn:He2.
  { apply labelIds_empty in He2. rewrite He2 in Hids.
    symmetry in Hids. apply Permutation_nil in Hids.
    apply labelIds_empty in Hids. congruence. }
  destruct (resolveLabels (labelIDMap p1) (labelIds row1) [])
    as [| lls1] eqn:Hres1; [discriminate |].
  destruct (resolveLabels (labelIDMap p2) (labelIds row2) [])
    as [| lls2] eqn:Hres2; [discriminate |].
  injection HAt1 as <- _. injection HAt2 as <- _. cbn [labels] in *.
  apply resolveLabels_inr in Hres1 as (ls1 & -> & Hall1).
  apply resolveLabels_inr in Hres2 as (ls2 & -> & Hall2).
  cbn [app] in *.
  apply resolves_functional in Hall1, Hall2. rewrite <- Hmap in Hall2.
  assert (Hperm : Permutation ls1 ls2).
  { rewrite Hall1, Hall2. apply Permutation_map, filter_Permutation_bool, Hids. }
  assert (Hnd : NoDup (map Name (assembled row1 ls1))).
  { rewrite <- (sort_Sort_Permutation (assembled row1 ls1)). exact Hnames. }
  assert (Hnd1 : NoDup (map Name ls1)).
  { unfold assembled in Hnd. rewrite map_app in Hnd.
    apply NoDup_app in Hnd as [Hnd _].
    destruct (decide (metricOverride row1 = "")); [exact Hnd |].
    rewrite overrideMetricName_names in Hnd. exact Hnd. }
  assert (Hnd2 : NoDup (map Name ls2)).
  { rewrite <- Hperm. exact Hnd1. }
  assert (Hasm : Permutation (assembled row1 ls1) (assembled row2 ls2)).
  { unfold assembled. rewrite <- Hover, <- Hadd.
    apply Permutation_app_tail.
    destruct (decide (metricOverride row1 = "")); [exact Hperm |].
    rewrite !overrideMetricName_as_map by assumption.
    apply Permutation_map, Hperm. }
  apply sorted_Permutation_unique.
  - apply sort_Sort_sorted.
  - apply sort_Sort_sorted.
  - rewrite !sort_Sort_Permutation. exact Hasm.
  - exact Hnames.
Qed.

Lemma At_labels_do_not_depend_on_identifier_order_witness :
  let p1 := {| rowIdx := 0; rows := [row_override];
               labelIDMap := example_map; set_err := None |} in
  let p2 := {| rowIdx := 0; rows := [row_override_reordered];
               labelIDMap := example_map; set_err := None |} in
  Permutation (labelIds row_override) (labelIds row_override_reordered) /\
  exists s1 s2,
    SeriesSet.At p1 = Ok (Some s1, p1) /\
    SeriesSet.At p2 = Ok (Some s2, p2) /\
    NoDup (map Name (labels s1)) /\
    labels s1 = labels s2.
Proof.
  cbv zeta.
  assert (Hids : Permutation (labelIds row_override)
                   (labelIds row_override_reordered)).
  { cbn. etransitivity; [apply perm_skip, perm_swap | apply perm_swap]. }
  assert (HAt1 : exists s1, SeriesSet.At
            {| rowIdx := 0; rows := [row_override];
               labelIDMap := example_map; set_err := None |}
          = Ok (Some s1, {| rowIdx := 0; rows := [row_override];
                            labelIDMap := example_map; set_err := None |}))
    by (eexists; vm_compute; reflexivity).
  assert (HAt2 : exists s2, SeriesSet.At
            {| rowIdx := 0; rows := [row_override_reordered];
               labelIDMap := example_map; set_err := None |}
          = Ok (Some s2, {| rowIdx := 0; rows := [row_override_reordered];
                            labelIDMap := example_map; set_err := None |}))
    by (eexists; vm_compute; reflexivity).
  destruct HAt1 as [s1 HAt1]. destruct HAt2 as [s2 HAt2].
  assert (Hnames : NoDup (map Name (labels s1))).
  { vm_compute in HAt1. injection HAt1 as <-.
    cbn [labels map Name].
    repeat (apply NoDup_cons_2;
            [rewrite list_elem_of_In; cbn; intuition discriminate |]).
    apply NoDup_nil_2. }
  split; [exact Hids |]. exists s1, s2.
  refine (conj HAt1 (conj HAt2 (conj Hnames _))).
  exact (At_labels_do_not_depend_on_identifier_order
           {| rowIdx := 0; rows := [row_override];
              labelIDMap := example_map; set_err := None |}
           {| rowIdx := 0; rows := [row_override_reordered];
              labelIDMap := example_map; set_err := None |}
           _ _ row_override row_override_reordered s1 s2
           eq_refl eq_refl eq_refl Hids eq_refl eq_refl HAt1 HAt2 Hnames).
Defined.

(** ** Further properties of the sample iterator *)

(** X9. [At()] of the iterator never panics when there are as many values
    as samples: outside the range, and so before any [Next()], it returns
    the zero timestamp and the zero value; inside, the timestamp and the
    value at the cursor. *)
Theorem Iterator_At_never_panics (p : pgxSeriesIterator)
  (Hwf : wf_iterator p) :
  (totalSamples p <= cur p \/ cur p < 0 ->
   Iterator.At p = Ok (0, 0%float)) /\
  (0 <= cur p < totalSamples p ->
   exists e, index (Elements (it_values p)) (cur p) = Some e /\
             Iterator.At p = Ok (sampleTs p (cur p), Float e)) /\
  Iterator.At (Iterator.with_cur (-1) p) = Ok (0, 0%float).
Proof.
  destruct Hwf as [Hlen _]. unfold Iterator.At. split; [| split].
  - intros Hout.
    destruct (Z.leb_spec (totalSamples p) (cur p));
      destruct (Z.ltb_spec (cur p) 0); cbn [orb]; try reflexivity; lia.
  - intros Hin.
    destruct (Z.leb_spec (totalSamples p) (cur p)); [lia |].
    destruct (Z.ltb_spec (cur p) 0); [lia |]. cbn [orb].
    assert (He : is_Some (index (Elements (it_values p)) (cur p)))
      by (apply index_is_Some; lia).
    destruct He as [e He]. exists e. split; [exact He |].
    unfold Iterator.getVal, at_index. rewrite He. reflexivity.
  - cbn [cur totalSamples Iterator.with_cur].
    destruct (totalSamples p <=? -1); reflexivity.
Qed.

Lemma Iterator_At_never_panics_witness :
  wf_iterator (Iterator.with_cur 2 example_iterator) /\
  exists e,
    index (Elements (it_values example_iterator)) 2 = Some e /\
    Iterator.At (Iterator.with_cur 2 example_iterator)
      = Ok (2, Float e).
Proof.
  assert (Hwf : wf_iterator (Iterator.with_cur 2 example_iterator))
    by (split; [reflexivity | vm_compute; discriminate]).
  split; [exact Hwf |].
  destruct (proj1 (proj2 (Iterator_At_never_panics _ Hwf)))
    as (e & He & HAt).
  { split; [vm_compute; discriminate | reflexivity]. }
  exists e. exact (conj He HAt).
Defined.

(** X10. After a [Next()] that returned true, [At()] reads a present
    sample: the cursor is inside the range, the timestamp there can be read,
    the value there has the status [Present], and [At()] returns the two. *)
Theorem Next_then_At_reads_present_sample
  (p q : pgxSeriesIterator) (fuel : nat)
  (Hwf : wf_iterator p) (Hcur : -1 <= cur p < GoInt.max_int)
  (Hfuel : (Next_bound p <= fuel)%nat)
  (Hnext : Iterator.Next fuel p = Ok (true, q)) :
  exists e,
    q = Iterator.with_cur (cur q) p /\
    cur p < cur q < totalSamples p /\
    snd (ts_At (it_times p) (cur q)) = true /\
    index (Elements (it_values p)) (cur q) = Some e /\
    Status_ e = Present /\
    Iterator.At q = Ok (sampleTs p (cur q), Float e).
Proof.
  destruct (Next_spec fuel p Hwf Hcur Hfuel) as (b & c & Hrun & Hlt & _ & Hb).
  rewrite Hrun in Hnext. injection Hnext as -> <-.
  destruct Hb as [Hin Hpres]. cbn [cur Iterator.with_cur].
  unfold presentb in Hpres. apply andb_true_iff in Hpres as [Hts Hval].
  destruct (index (Elements (it_values p)) c) as [e |] eqn:He;
    [| discriminate].
  apply bool_decide_eq_true in Hval.
  exists e. split; [reflexivity |]. split; [lia |]. split; [exact Hts |].
  split; [reflexivity |]. split; [exact Hval |].
  unfold Iterator.At. cbn [cur totalSamples Iterator.with_cur].
  destruct (Z.leb_spec (totalSamples p) c); [lia |].
  destruct (Z.ltb_spec c 0); [lia |]. cbn [orb].
  unfold Iterator.getVal, at_index. cbn [cur it_values Iterator.with_cur].
  rewrite He. reflexivity.
Qed.

Lemma Next_then_At_reads_present_sample_witness :
  wf_iterator (Iterator.with_cur 0 example_iterator) /\
  -1 <= cur (Iterator.with_cur 0 example_iterator) < GoInt.max_int /\
  (Next_bound (Iterator.with_cur 0 example_iterator) <= 5)%nat /\
  Iterator.Next 5 (Iterator.with_cur 0 example_iterator)
    = Ok (true, Iterator.with_cur 2 example_iterator) /\
  exists e,
    Status_ e = Present /\
    Iterator.At (Iterator.with_cur 2 example_iterator)
      = Ok (sampleTs (Iterator.with_cur 0 example_iterator) 2, Float e).
Proof.
  assert (Hwf : wf_iterator (Iterator.with_cur 0 example_iterator))
    by (split; [reflexivity | vm_compute; discriminate]).
  assert (Hcur : -1 <= cur (Iterator.with_cur 0 example_iterator)
                 < GoInt.max_int)
    by (split; [vm_compute; discriminate | reflexivity]).
  assert (Hfuel : (Next_bound (Iterator.with_cur 0 example_iterator) <= 5)%nat)
    by (vm_compute; lia).
  assert (Hnext : Iterator.Next 5 (Iterator.with_cur 0 example_iterator)
                  = Ok (true, Iterator.with_cur 2 example_iterator))
    by (vm_compute; reflexivity).
  refine (conj Hwf (conj Hcur (conj Hfuel (conj Hnext _)))).
  destruct (Next_then_At_reads_present_sample _ _ 5 Hwf Hcur Hfuel Hnext)
    as (e & _ & _ & _ & _ & Hpres & HAt).
  exists e. exact (conj Hpres HAt).
Defined.

(** X11. For the iterator, too, exhaustion is terminal: once [Next()] has
    returned false, [At()] returns the zero timestamp and the zero value,
    and every later [Next()] returns false, moving the cursor one further
    past the range. *)
Theorem Iterator_Next_false_is_terminal
  (p q : pgxSeriesIterator) (fuel : nat)
  (Hwf : wf_iterator p) (Hcur : -1 <= cur p < GoInt.max_int)
  (Hfuel : (Next_bound p <= fuel)%nat)
  (Hnext : Iterator.Next fuel p = Ok (false, q)) :
  totalSamples q <= cur q /\
  Iterator.At q = Ok (0, 0%float) /\
  (cur q < GoInt.max_int ->
   forall fuel' : nat,
     Iterator.Next (S fuel') q = Ok (false, Iterator.with_cur (cur q + 1) q) /\
     Iterator.At (Iterator.with_cur (cur q + 1) q) = Ok (0, 0%float)).
Proof.
  destruct (Next_spec fuel p Hwf Hcur Hfuel) as (b & c & Hrun & Hlt & _ & Hb).
  rewrite Hrun in Hnext. injection Hnext as -> <-.
  destruct Hb as [Hout Hc]. cbn [cur totalSamples Iterator.with_cur].
  split; [exact Hout |].
  assert (Hzero : forall d, totalSamples p <= d ->
            Iterator.At (Iterator.with_cur d p) = Ok (0, 0%float)).
  { intros d Hd. unfold Iterator.At. cbn [cur totalSamples Iterator.with_cur].
    destruct (Z.leb_spec (totalSamples p) d); [reflexivity | lia]. }
  split; [apply Hzero, Hout |].
  intros Hbelow fuel'. split; [| apply Hzero; lia].
  unfold Iterator.Next. rewrite Next_loop_unfold
    by (cbn [cur Iterator.with_cur];
        unfold GoInt.min_int, GoInt.max_int in *; lia).
  cbv zeta. cbn [cur totalSamples Iterator.with_cur].
  destruct (Z.leb_spec (totalSamples p) (c + 1)); [reflexivity | lia].
Qed.

Lemma Iterator_Next_false_is_terminal_witness :
  wf_iterator (Iterator.with_cur 2 example_iterator) /\
  Iterator.Next 5 (Iterator.with_cur 2 example_iterator)
    = Ok (false, Iterator.with_cur 4 example_iterator) /\
  Iterator.At (Iterator.with_cur 4 example_iterator) = Ok (0, 0%float).
Proof.
  assert (Hwf : wf_iterator (Iterator.with_cur 2 example_iterator))
    by (split; [reflexivity | vm_compute; discriminate]).
  assert (Hcur : -1 <= cur (Iterator.with_cur 2 example_iterator)
                 < GoInt.max_int)
    by (split; [vm_compute; discriminate | reflexivity]).
  assert (Hfuel : (Next_bound (Iterator.with_cur 2 example_iterator) <= 5)%nat)
    by (vm_compute; lia).
  assert (Hnext : Iterator.Next 5 (Iterator.with_cur 2 example_iterator)
                  = Ok (false, Iterator.with_cur 4 example_iterator))
    by (vm_compute; reflexivity).
  refine (conj Hwf (conj Hnext _)).
  exact (proj1 (proj2 (Iterator_Next_false_is_terminal
                         _ _ 5 Hwf Hcur Hfuel Hnext))).
Defined.

Lemma omap_all_None {A B : Type} (f : A -> option B) (l : list A) :
  (forall x, In x l -> f x = None) -> omap f l = [].
Proof.
  induction l as [| x l IH]; intros Hnone; [reflexivity |].
  cbn. rewrite (Hnone x (or_introl eq_refl)).
  apply IH. intros y Hy. apply Hnone. right. exact Hy.
Qed.

Lemma omap_cons_eq {A B : Type} (f : A -> option B) (x : A) (l : list A) :
  omap f (x :: l)
    = match f x with Some y => y :: omap f l | None => omap f l end.
Proof. reflexivity. Qed.

(** The samples from position [a] on, when none is present before [b]. *)
Lemma omap_seqZ_skip {B : Type} (f : Z -> option B) (a b n : Z) :
  a <= b -> 0 <= n ->
  (forall j, a <= j < b -> f j = None) ->
  omap f (seqZ a (b - a + n)) = omap f (seqZ b n).
Proof.
  intros Hab Hn Hnone.
  rewrite seqZ_app by lia. rewrite omap_app.
  rewrite omap_all_None; [cbn [app]; f_equal; f_equal; lia |].
  intros j Hj. apply Hnone.
  apply list_elem_of_In, elem_of_seqZ in Hj. lia.
Qed.

Lemma collect_from (fuel : nat) (p0 : pgxSeriesIterator) :
  wf_iterator p0 -> (Seek_bound p0 <= fuel)%nat ->
  forall (calls : nat) (c0 : Z),
  -1 <= c0 < totalSamples p0 ->
  (Z.to_nat (totalSamples p0 - c0) <= calls)%nat ->
  collect fuel calls (Iterator.with_cur c0 p0) =
    Ok (omap (sample_at p0) (seqZ (c0 + 1) (totalSamples p0 - c0 - 1)),
        Iterator.with_cur (totalSamples p0) p0).
Proof.
  intros Hwf Hfuel. pose proof Hwf as [Hlen Hmax].
  induction calls as [| calls IH]; intros c0 Hc0 Hcalls; [lia |].
  cbn [collect].
  destruct (Next_spec fuel (Iterator.with_cur c0 p0))
    as (b & c & Hrun & Hlt & Hskip & Hb).
  { exact Hwf. }
  { cbn. lia. }
  { unfold Next_bound, Seek_bound in *. cbn. lia. }
  change (Iterator.with_cur c (Iterator.with_cur c0 p0))
    with (Iterator.with_cur c p0) in Hrun.
  change (cur (Iterator.with_cur c0 p0)) with c0 in Hlt, Hskip, Hb.
  change (totalSamples (Iterator.with_cur c0 p0))
    with (totalSamples p0) in Hb.
  assert (Hskip0 : forall j, c0 + 1 <= j < c -> sample_at p0 j = None).
  { intros j Hj. unfold sample_at.
    change (presentb p0 j) with (presentb (Iterator.with_cur c0 p0) j).
    rewrite Hskip by lia. reflexivity. }
  rewrite Hrun. cbn [mbind outcome_bind]. destruct b.
  - destruct Hb as [Hin Hpres].
    change (presentb p0 c = true) in Hpres.
    assert (He : is_Some (index (Elements (it_values p0)) c))
      by (apply index_is_Some; lia).
    destruct He as [e He].
    assert (HAt : Iterator.At (Iterator.with_cur c p0)
                  = Ok (sampleTs p0 c, Float e)).
    { unfold Iterator.At. cbn [cur totalSamples Iterator.with_cur].
      destruct (Z.leb_spec (totalSamples p0) c); [lia |].
      destruct (Z.ltb_spec c 0); [lia |]. cbn [orb].
      unfold Iterator.getVal, at_index.
      cbn [cur it_values Iterator.with_cur]. rewrite He. reflexivity. }
    rewrite HAt. cbn [mbind outcome_bind].
    rewrite (IH c) by lia. cbn [mbind outcome_bind].
    f_equal. f_equal.
    replace (totalSamples p0 - c0 - 1)
      with (c - (c0 + 1) + (totalSamples p0 - c)) by lia.
    rewrite (omap_seqZ_skip _ (c0 + 1) c) by (try lia; exact Hskip0).
    assert (Hs : sample_at p0 c = Some (sampleTs p0 c, Float e))
      by (unfold sample_at; rewrite Hpres, He; reflexivity).
    rewrite (seqZ_cons c), omap_cons_eq, Hs by lia.
    do 3 f_equal; lia.
  - destruct Hb as [_ Hc].
    replace c with (totalSamples p0) in * by lia.
    f_equal. f_equal. symmetry. apply omap_all_None.
    intros j Hj. apply Hskip0.
    apply list_elem_of_In, elem_of_seqZ in Hj. lia.
Qed.

(** X12. The loop of a consumer, [for it.Next() { t, v := it.At() }], on an
    iterator that [newIterator] made from as many values as timestamps,
    reads exactly the present samples, in the order of their positions, and
    leaves the iterator exhausted. *)
Theorem collect_reads_the_present_samples
  (ts : TimestampSeries) (vs : Float8Array) (fuel : nat)
  (Hlen : ts_Len ts = len (Elements vs))
  (Hmax : len (Elements vs) <= GoInt.max_int)
  (Hfuel : (Z.to_nat (ts_Len ts + 1) <= fuel)%nat) :
  let it := Iterator.newIterator ts vs in
  collect fuel fuel it
    = Ok (present_samples it, Iterator.with_cur (totalSamples it) it).
Proof.
  intros it. pose proof (len_nonneg (Elements vs)) as Hnn.
  assert (Hwf : wf_iterator it) by (split; cbn; lia).
  pose proof (collect_from fuel it Hwf Hfuel fuel (-1)) as Hrun.
  cbn [totalSamples it Iterator.newIterator] in Hrun.
  specialize (Hrun ltac:(lia) ltac:(lia)).
  replace (ts_Len ts - -1 - 1) with (ts_Len ts) in Hrun by lia.
  exact Hrun.
Qed.

Lemma collect_reads_the_present_samples_witness :
  ts_Len example_times = len (Elements example_values) /\
  len (Elements example_values) <= GoInt.max_int /\
  (Z.to_nat (ts_Len example_times + 1) <= 5)%nat /\
  collect 5 5 example_iterator
    = Ok ([(0, 1.0%float); (2, 3.0%float)],
          Iterator.with_cur 4 example_iterator).
Proof.
  assert (Hlen : ts_Len example_times = len (Elements example_values))
    by reflexivity.
  assert (Hmax : len (Elements example_values) <= GoInt.max_int)
    by (vm_compute; discriminate).
  assert (Hfuel : (Z.to_nat (ts_Len example_times + 1) <= 5)%nat)
    by (vm_compute; lia).
  refine (conj Hlen (conj Hmax (conj Hfuel _))).
  exact (collect_reads_the_present_samples
           example_times example_values 5 Hlen Hmax Hfuel).
Defined.

(** X13. Every series that [At()] returns can be read to its end: its
    iterator is over the timestamps and the values of the row, and the loop
    of a consumer on it returns, without a panic, the present samples of the
    row. *)
Theorem At_series_can_be_read
  (p q : pgxSeriesSet) (row : timescaleRow) (s : pgxSeries) (fuel : nat)
  (Hpos : positioned p row)
  (HAt : SeriesSet.At p = Ok (Some s, q))
  (Hmax : len (Elements (values row)) <= GoInt.max_int)
  (Hfuel : (Z.to_nat (ts_Len (times row) + 1) <= fuel)%nat) :
  Series.Iterator s = Iterator.newIterator (times row) (values row) /\
  collect fuel fuel (Series.Iterator s)
    = Ok (present_samples (Iterator.newIterator (times row) (values row)),
          Iterator.with_cur (ts_Len (times row))
            (Iterator.newIterator (times row) (values row))).
Proof.
  pose proof (At_Some p q row s Hpos HAt) as Hasm.
  assert (Hit : Series.Iterator s
                = Iterator.newIterator (times row) (values row)).
  { rewrite (At_assembles p row Hasm) in HAt.
    destruct (len (labelIds row) =? 0).
    - injection HAt as <- _. reflexivity.
    - destruct (resolveLabels _ _ _); [discriminate |].
      injection HAt as <- _. reflexivity. }
  split; [exact Hit |]. rewrite Hit.
  destruct Hasm as (_ & _ & Hlen).
  pose proof (len_nonneg (Elements (values row))) as Hnn.
  assert (Hwf : wf_iterator (Iterator.newIterator (times row) (values row)))
    by (split; cbn [totalSamples it_values Iterator.newIterator]; lia).
  pose proof (collect_from fuel _ Hwf Hfuel fuel (-1)) as Hrun.
  cbn [totalSamples Iterator.newIterator] in Hrun.
  specialize (Hrun ltac:(lia) ltac:(lia)).
  replace (ts_Len (times row) - -1 - 1) with (ts_Len (times row)) in Hrun
    by lia.
  exact Hrun.
Qed.

Lemma At_series_can_be_read_witness :
  let p := {| rowIdx := 0; rows := [row_override];
              labelIDMap := example_map; set_err := None |} in
  positioned p row_override /\
  len (Elements (values row_override)) <= GoInt.max_int /\
  exists s,
    SeriesSet.At p = Ok (Some s, p) /\
    exists it, collect 3 3 (Series.Iterator s) = Ok ([(0, 1.0%float)], it).
Proof.
  cbv zeta.
  assert (Hpos : positioned
            {| rowIdx := 0; rows := [row_override];
               labelIDMap := example_map; set_err := None |} row_override)
    by reflexivity.
  assert (Hmax : len (Elements (values row_override)) <= GoInt.max_int)
    by (vm_compute; discriminate).
  assert (HAt : exists s, SeriesSet.At
            {| rowIdx := 0; rows := [row_override];
               labelIDMap := example_map; set_err := None |}
          = Ok (Some s, {| rowIdx := 0; rows := [row_override];
                           labelIDMap := example_map; set_err := None |}))
    by (eexists; vm_compute; reflexivity).
  destruct HAt as [s HAt].
  refine (conj Hpos (conj Hmax _)). exists s. split; [exact HAt |].
  eexists.
  exact (proj2 (At_series_can_be_read _ _ row_override s 3 Hpos HAt Hmax
                  ltac:(vm_compute; lia))).
Defined.

(** X14. [Seek] is monotone in the timestamp, whatever the order of the
    timestamps of the samples: for [t <= t'], [Seek(t)] parks at or before
    the position where [Seek(t')] parks, and if [Seek(t)] finds no sample
    then [Seek(t')] finds none either. *)
Theorem Seek_is_monotone
  (p q q' : pgxSeriesIterator) (t t' : Z) (fuel : nat) (b b' : bool)
  (Hwf : wf_iterator p) (Hfuel : (Seek_bound p <= fuel)%nat)
  (Hle : t <= t')
  (Hseek : Iterator.Seek fuel p t = Ok (b, q))
  (Hseek' : Iterator.Seek fuel p t' = Ok (b', q')) :
  cur q <= cur q' /\ (b = false -> b' = false).
Proof.
  destruct (Seek_spec fuel t p Hwf Hfuel)
    as [(j & Hj & Hrun) | (Hnone & Hrun)];
    rewrite Hrun in Hseek; injection Hseek as <- <-;
    destruct (Seek_spec fuel t' p Hwf Hfuel)
      as [(j' & Hj' & Hrun') | (Hnone' & Hrun')];
    rewrite Hrun' in Hseek'; injection Hseek' as <- <-;
    cbn [cur Iterator.with_cur].
  - split; [| discriminate].
    destruct Hj as (_ & _ & _ & Hmin). destruct Hj' as (Hr' & Hp' & Ht' & _).
    destruct (Z.le_gt_cases j j') as [Hok | Hlt]; [exact Hok |].
    specialize (Hmin j' ltac:(lia) Hp'). lia.
  - split; [| discriminate]. destruct Hj as (Hr & _). lia.
  - exfalso. destruct Hj' as (Hr' & Hp' & Ht' & _).
    specialize (Hnone j' Hr' Hp'). lia.
  - split; [lia | reflexivity].
Qed.

Lemma Seek_is_monotone_witness :
  wf_iterator example_iterator /\
  (Seek_bound example_iterator <= 5)%nat /\
  Iterator.Seek 5 example_iterator 1
    = Ok (true, Iterator.with_cur 2 example_iterator) /\
  Iterator.Seek 5 example_iterator 10
    = Ok (false, Iterator.with_cur 4 example_iterator) /\
  cur (Iterator.with_cur 2 example_iterator)
    <= cur (Iterator.with_cur 4 example_iterator).
Proof.
  assert (Hwf : wf_iterator example_iterator)
    by (split; [reflexivity | vm_compute; discriminate]).
  assert (Hfuel : (Seek_bound example_iterator <= 5)%nat)
    by (vm_compute; lia).
  assert (Hseek : Iterator.Seek 5 example_iterator 1
                  = Ok (true, Iterator.with_cur 2 example_iterator))
    by (vm_compute; reflexivity).
  assert (Hseek' : Iterator.Seek 5 example_iterator 10
                   = Ok (false, Iterator.with_cur 4 example_iterator))
    by (vm_compute; reflexivity).
  refine (conj Hwf (conj Hfuel (conj Hseek (conj Hseek' _)))).
  exact (proj1 (Seek_is_monotone _ _ _ 1 10 5 _ _ Hwf Hfuel
                  ltac:(lia) Hseek Hseek')).
Defined.

(** X15. A latched error does not stop the iteration: where [At()] returns
    a series on a cursor, it returns the same series on that cursor with
    any error latched, and leaves that error in place for [Err()]. *)
Theorem latched_error_does_not_hide_series
  (p q : pgxSeriesSet) (s : pgxSeries) (e : error)
  (HAt : SeriesSet.At p = Ok (Some s, q)) :
  SeriesSet.At (SeriesSet.with_err (Some e) p)
    = Ok (Some s, SeriesSet.with_err (Some e) p) /\
  SeriesSet.Err (SeriesSet.with_err (Some e) p)
    = Some (ErrRetrievingSeriesSet e).
Proof.
  split; [| reflexivity].
  revert HAt. unfold SeriesSet.At.
  cbn [rows rowIdx labelIDMap SeriesSet.with_err].
  destruct (len (rows p) <=? rowIdx p); [discriminate |].
  destruct (at_index (rows p) (rowIdx p)) as [row | |]; try discriminate.
  cbn [mbind outcome_bind].
  destruct (err row); [discriminate |].
  destruct (negb _); [discriminate |].
  destruct (len (labelIds row) =? 0).
  { intros [= <- _]. reflexivity. }
  destruct (resolveLabels _ _ _); [discriminate |].
  intros [= <- _]. reflexivity.
Qed.

Lemma latched_error_does_not_hide_series_witness :
  let p := {| rowIdx := 0; rows := [row_override];
              labelIDMap := example_map; set_err := None |} in
  exists s,
    SeriesSet.At p = Ok (Some s, p) /\
    SeriesSet.At (SeriesSet.with_err (Some ErrInvalidRowData) p)
      = Ok (Some s, SeriesSet.with_err (Some ErrInvalidRowData) p).
Proof.
  cbv zeta.
  assert (HAt : exists s, SeriesSet.At
            {| rowIdx := 0; rows := [row_override];
               labelIDMap := example_map; set_err := None |}
          = Ok (Some s, {| rowIdx := 0; rows := [row_override];
                           labelIDMap := example_map; set_err := None |}))
    by (eexists; vm_compute; reflexivity).
  destruct HAt as [s HAt]. exists s. split; [exact HAt |].
  exact (proj1 (latched_error_does_not_hide_series
                  _ _ s ErrInvalidRowData HAt)).
Defined.
